(** * Behavior3JS: the Parallel composite and the project loader

    A shallow embedding of [src/src/composites/Parallel.js] ([b3.Parallel])
    and of [b3.LoadProject] in [src/unnamed/part_000]. *)

From Stdlib Require Import ZArith List String Ascii Bool Lia.
Import ListNotations.
Open Scope Z_scope.
Open Scope string_scope.

(** ** Constants of the [b3] namespace *)

(** The four outcome constants [b3.SUCCESS], [b3.FAILURE], [b3.RUNNING],
    [b3.ERROR]. *)
Inductive status := SUCCESS | FAILURE | RUNNING | ERROR.

Definition status_eqb (a b : status) : bool :=
  match a, b with
  | SUCCESS, SUCCESS | FAILURE, FAILURE | RUNNING, RUNNING | ERROR, ERROR => true
  | _, _ => false
  end.

Lemma status_eqb_eq (a b : status) : status_eqb a b = true <-> a = b.
Proof. destruct a, b; simpl; split; congruence. Qed.

(** The node categories [b3.COMPOSITE], [b3.DECORATOR], [b3.ACTION],
    [b3.CONDITION]. *)
Inductive category := COMPOSITE | DECORATOR | ACTION | CONDITION.

Definition category_eqb (a b : category) : bool :=
  match a, b with
  | COMPOSITE, COMPOSITE | DECORATOR, DECORATOR
  | ACTION, ACTION | CONDITION, CONDITION => true
  | _, _ => false
  end.

(** ** [b3.Parallel.prototype.tick] *)

Module Parallel.

(** [var counter = {}; counter[b3.SUCCESS] = 0; ...]: one slot per outcome. *)
Definition counter := status -> Z.

Definition counter0 : counter := fun _ => 0.

(** [counter[s]++] *)
Definition bump (c : counter) (s : status) : counter :=
  fun s' => if status_eqb s s' then c s' + 1 else c s'.

Section Tick.

(** The tick object and the blackboard it reaches: whatever state a child's
    [_execute] reads and writes. *)
Variable St : Type.

(** A child node, seen through its [_execute(tick)] entry point, which may
    read and update the state and returns one outcome. *)
Record child := mkChild { child_id : nat; child_execute : St -> status * St }.

(** [this.children.forEach(function (node) { counter[node._execute(tick)]++; })].
    The trace records, in order, every child whose [_execute] was called and
    the outcome it returned. *)
Fixpoint run_children (cs : list child) (c : counter) (st : St)
  : counter * St * list (child * status) :=
  match cs with
  | [] => (c, st, [])
  | n :: rest =>
      let '(r, st1) := child_execute n st in
      let '(c2, st2, tr) := run_children rest (bump c r) st1 in
      (c2, st2, (n, r) :: tr)
  end.

(** The whole [tick] method, for a node whose fields are [this.F],
    [this.S] and [this.children]. *)
Definition tick (F S : Z) (children : list child) (st : St)
  : status * St * list (child * status) :=
  let '(c, st', tr) := run_children children counter0 st in
  if c SUCCESS >=? S then (SUCCESS, st', tr)
  else if c FAILURE >=? F then (FAILURE, st', tr)
  else (RUNNING, st', tr).

End Tick.

Arguments mkChild {St}.
Arguments child_id {St}.
Arguments child_execute {St}.
Arguments run_children {St}.
Arguments tick {St}.

(** Number of entries of a list of outcomes equal to [s]. *)
Definition count (s : status) (l : list status) : Z :=
  Z.of_nat (List.length (filter (status_eqb s) l)).

(** ** [b3.Parallel.prototype.initialize] *)

(** The global environment seen by the strict-mode initializer: whether a
    global binding named [parameters] exists. In strict mode, an assignment
    to an undeclared identifier throws a ReferenceError. *)
Record global_env := { has_global_parameters : bool }.

(** The settings object: [settings.F] and [settings.S] when present (the
    documented values are integers). *)
Record settings := { set_F : option Z; set_S : option Z }.

Inductive init_result :=
  | InitOk (F S : Z)             (* this.F, this.S after the call *)
  | InitThrows (message : string). (* a ReferenceError *)

(** [settings.F || 0] *)
Definition or_zero (v : option Z) : Z :=
  match v with Some z => if Z.eqb z 0 then 0 else z | None => 0 end.

(** [parameters = settings || {}; b3.Composite.prototype.initialize.call(this);
      this.F = settings.F || 0; this.S = settings.S || 0;] *)
Definition initialize (env : global_env) (s : settings) : init_result :=
  if has_global_parameters env
  then InitOk (or_zero (set_F s)) (or_zero (set_S s))
  else InitThrows "ReferenceError: parameters is not defined".

End Parallel.

(** ** [b3.LoadProject] *)

Module Loader.

(** *** JavaScript values and objects *)

(** A string field of a created object: a string, the [n]-th result of
    [b3.createUUID] (a 36-character string, see [part_000] lines 19-35), or
    [undefined]. *)
Inductive fval := FStr (s : string) | FUuid (n : nat) | FUndef.

(** [a || b] on a string read from a specification (an empty string is
    falsy). *)
Definition str_or (a : string) (b : fval) : fval :=
  if String.eqb a "" then b else FStr a.

(** A property bag (the settings handed to a constructor). *)
Definition props := list (string * Z).

(** [a || b] on an optional property bag (an object is truthy). *)
Definition props_or (a b : option props) : option props :=
  match a with Some p => Some p | None => b end.

(** Values stored in [tempNodes], in [children], [child] and [root]:
    [undefined], a reference to a heap object, or a member inherited from
    [Object.prototype] (a function, hence truthy). *)
Inductive jval := JUndef | JLoc (l : nat) | JInherited (k : string).

Definition truthy (v : jval) : bool :=
  match v with JUndef => false | _ => true end.

(** The properties every plain object [{}] inherits from [Object.prototype]
    (a write to [__proto__], which replaces the prototype in JavaScript, is
    not modelled; such writes are treated as ordinary keys). *)
Definition object_proto_keys : list string :=
  ["constructor"; "toString"; "toLocaleString"; "valueOf"; "hasOwnProperty";
   "isPrototypeOf"; "propertyIsEnumerable"; "__proto__"; "__defineGetter__";
   "__defineSetter__"; "__lookupGetter__"; "__lookupSetter__"].

Definition is_proto_key (k : string) : bool :=
  existsb (String.eqb k) object_proto_keys.

(** A plain object used as a map: its own properties, most recent write
    first. *)
Definition jsmap (V : Type) := list (string * V).

Fixpoint own {V} (m : jsmap V) (k : string) : option V :=
  match m with
  | [] => None
  | (k', v) :: r => if String.eqb k k' then Some v else own r k
  end.

(** [obj[k] = v] *)
Definition put {V} (m : jsmap V) (k : string) (v : V) : jsmap V := (k, v) :: m.

(** Kinds of heap objects. *)
Inductive okind :=
  | KTree               (* a b3.BehaviorTree *)
  | KNode (cls : string) (* an instance of a node class of the b3 namespace *)
  | KPlain.             (* an object made by [new f()] for a non-node function *)

(** A heap object with the fields the loader reads or writes. *)
Record obj := mkObj {
  o_kind : okind;
  o_category : option category;
  o_id : fval; o_title : fval; o_description : fval;
  o_properties : option props;
  o_children : list jval;
  o_child : jval;
  o_root : jval;
  o_F : Z; o_S : Z }.

Definition set_id (o : obj) v :=
  mkObj (o_kind o) (o_category o) v (o_title o) (o_description o)
    (o_properties o) (o_children o) (o_child o) (o_root o) (o_F o) (o_S o).
Definition set_title (o : obj) v :=
  mkObj (o_kind o) (o_category o) (o_id o) v (o_description o)
    (o_properties o) (o_children o) (o_child o) (o_root o) (o_F o) (o_S o).
Definition set_description (o : obj) v :=
  mkObj (o_kind o) (o_category o) (o_id o) (o_title o) v
    (o_properties o) (o_children o) (o_child o) (o_root o) (o_F o) (o_S o).
Definition set_properties (o : obj) v :=
  mkObj (o_kind o) (o_category o) (o_id o) (o_title o) (o_description o)
    v (o_children o) (o_child o) (o_root o) (o_F o) (o_S o).
Definition push_child (o : obj) v :=
  mkObj (o_kind o) (o_category o) (o_id o) (o_title o) (o_description o)
    (o_properties o) (o_children o ++ [v]) (o_child o) (o_root o) (o_F o) (o_S o).
Definition set_child (o : obj) v :=
  mkObj (o_kind o) (o_category o) (o_id o) (o_title o) (o_description o)
    (o_properties o) (o_children o) v (o_root o) (o_F o) (o_S o).
Definition set_root (o : obj) v :=
  mkObj (o_kind o) (o_category o) (o_id o) (o_title o) (o_description o)
    (o_properties o) (o_children o) (o_child o) v (o_F o) (o_S o).

(** The heap and the number of [b3.createUUID] calls made so far. *)
Record St := mkSt { heap : list obj; uuids : nat }.

(** Exceptions thrown by the loader. *)
Inductive exn :=
  | EvalError (message : string)
  | TypeError (message : string)
  | ReferenceError (message : string).

(** *** A state and exception monad *)

Inductive res (A : Type) := Ok (a : A) (s : St) | Exc (e : exn).
Arguments Ok {A}.
Arguments Exc {A}.

Definition M (A : Type) := St -> res A.

Definition ret {A} (a : A) : M A := fun s => Ok a s.
Definition throw {A} (e : exn) : M A := fun _ => Exc e.
Definition bind {A B} (m : M A) (k : A -> M B) : M B :=
  fun s => match m s with Ok a s' => k a s' | Exc e => Exc e end.

Notation "x <- m ;; k" := (bind m (fun x => k))
  (at level 61, m at next level, right associativity).
Notation "m ;; k" := (bind m (fun _ => k))
  (at level 61, right associativity).

(** [b3.createUUID()] *)
Definition createUUID : M fval :=
  fun s => Ok (FUuid (uuids s)) (mkSt (heap s) (S (uuids s))).

Definition alloc (o : obj) : M nat :=
  fun s => Ok (List.length (heap s)) (mkSt (heap s ++ [o]) (uuids s)).

(** The object at a location. The loader only follows references to
    allocated objects; [dflt_obj] fills the unreachable out-of-range case. *)
Definition dflt_obj : obj :=
  mkObj KPlain None FUndef FUndef FUndef None [] JUndef JUndef 0 0.

Definition obj_at (s : St) (l : nat) : obj := nth l (heap s) dflt_obj.

Definition read (l : nat) : M obj := fun s => Ok (obj_at s l) s.

Fixpoint replace {A} (l : list A) (n : nat) (x : A) : list A :=
  match l, n with
  | [], _ => []
  | _ :: r, O => x :: r
  | y :: r, S n' => y :: replace r n' x
  end.

Definition write (l : nat) (o : obj) : M unit :=
  fun s => Ok tt (mkSt (replace (heap s) l o) (uuids s)).

Definition update (l : nat) (f : obj -> obj) : M unit :=
  o <- read l ;; write l (f o).

Fixpoint foldM {A B} (f : B -> A -> M B) (b : B) (l : list A) : M B :=
  match l with
  | [] => ret b
  | x :: r => b' <- f b x ;; foldM f b' r
  end.

(** *** Project specifications (the editor's JSON) *)

(** A node specification [{name, id, title, description, properties,
    children?, child?}]. *)
Record node_spec := mkNodeSpec {
  ns_name : string;
  ns_id : string; ns_title : string; ns_description : string;
  ns_properties : option props;
  ns_children : option (list string);
  ns_child : option string }.

(** A tree specification; [ts_nodes] lists the [nodes] object's keys in the
    order [for (var id in nodes)] enumerates them. *)
Record tree_spec := mkTreeSpec {
  ts_id : string; ts_title : string; ts_description : string;
  ts_properties : option props;
  ts_root : string;
  ts_nodes : list (string * node_spec) }.

(** [projectData.trees] *)
Record project := mkProject { p_trees : list tree_spec }.

(** The [projectData] argument: any JavaScript value. [IObject None] is an
    object without a [trees] array. *)
Inductive input :=
  | IUndefined | INull | IBoolean (b : bool) | INumber (z : Z)
  | IString (s : string) | IFunction
  | IObject (p : option project).

(** [typeof projectData] *)
Definition typeof (v : input) : string :=
  match v with
  | IUndefined => "undefined"
  | INull => "object"
  | IBoolean _ => "boolean"
  | INumber _ => "number"
  | IString _ => "string"
  | IFunction => "function"
  | IObject _ => "object"
  end.

(** *** The [b3] namespace and the constructors it holds *)

(** What [new b3[name](props)] does, by the kind of the member. *)
Inductive member :=
  | MNodeClass (cls : string) (cat : category)
      (* a node class other than Parallel (BaseNode subclasses, not in src) *)
  | MParallel
      (* b3.Parallel, src/src/composites/Parallel.js *)
  | MPlainFunction
      (* a function that is not a node class, such as b3.createUUID *)
  | MNonConstructor.
      (* a member that is not a function, such as the constant b3.SUCCESS *)

(** The loader's environment: the own members of [b3], and the global
    environment seen by [b3.Parallel]'s strict-mode initializer. *)
Record env := mkEnv {
  b3 : string -> option member;
  genv : Parallel.global_env }.

(** Modelled from the spec: the constructor of [b3.BehaviorTree] (not in
    src). A new tree gets a generated id ("Unique-id provider ... for
    nodes/trees not given an explicit id"), no title or description, an
    empty property bag and no root yet. *)
Definition new_BehaviorTree : M nat :=
  id <- createUUID ;;
  alloc (mkObj KTree None id FUndef FUndef (Some []) [] JUndef JUndef 0 0).

(** Modelled from the spec: the constructor of a node class (BaseNode and
    its Composite/Decorator/Action/Condition subclasses, not in src): a
    generated id, the category fixed by the class, the settings captured as
    the property bag, composites starting with an empty children list. *)
Definition new_node_class (cls : string) (cat : category) (p : option props)
  : M nat :=
  id <- createUUID ;;
  alloc (mkObj (KNode cls) (Some cat) id FUndef FUndef
           (Some (match p with Some q => q | None => [] end))
           [] JUndef JUndef 0 0).

(** [settings.F] in a property bag. *)
Definition prop_get (p : props) (k : string) : option Z :=
  match find (fun kv => String.eqb (fst kv) k) p with
  | Some (_, v) => Some v
  | None => None
  end.

(** [new b3.Parallel(props)]: [b3.Class]'s constructor calls
    [this.initialize(params || {})] (part_000 lines 74-76); the initializer
    assigns the undeclared [parameters] first, then runs the Composite
    initializer and sets [this.F] and [this.S]. *)
Definition new_Parallel (ge : Parallel.global_env) (p : option props) : M nat :=
  let settings := match p with Some q => q | None => [] end in
  match Parallel.initialize ge
          {| Parallel.set_F := prop_get settings "F";
             Parallel.set_S := prop_get settings "S" |} with
  | Parallel.InitThrows m => throw (ReferenceError m)
  | Parallel.InitOk vF vS =>
      l <- new_node_class "Parallel" COMPOSITE p ;;
      update l (fun o => mkObj (o_kind o) (o_category o) (o_id o) (o_title o)
                          (o_description o) (o_properties o) (o_children o)
                          (o_child o) (o_root o) vF vS) ;;
      ret l
  end.

(** [new cls(props)] for a member of [b3]. *)
Definition construct (ge : Parallel.global_env) (m : member) (p : option props)
  : M nat :=
  match m with
  | MNodeClass cls cat => new_node_class cls cat p
  | MParallel => new_Parallel ge p
  | MPlainFunction =>
      (* the function's return value is discarded by [new]; the result is the
         fresh object *)
      alloc (mkObj KPlain None FUndef FUndef FUndef None [] JUndef JUndef 0 0)
  | MNonConstructor => throw (TypeError "cls is not a constructor")
  end.

(** *** The loader *)

(** [trees[name]] on the plain object [trees]. *)
Definition get_tree (trees : jsmap nat) (k : string) : jval :=
  match own trees k with
  | Some l => JLoc l
  | None => if is_proto_key k then JInherited k else JUndef
  end.

(** [tempNodes[id]] on the plain object [tempNodes]. *)
Definition get_temp (temp : jsmap jval) (k : string) : jval :=
  match own temp k with
  | Some v => v
  | None => if is_proto_key k then JInherited k else JUndef
  end.

(** [name in names] for the custom-node object [names || {}]: its own keys
    and the keys it inherits from [Object.prototype]. *)
Definition in_names (names : list string) (k : string) : bool :=
  existsb (String.eqb k) names || is_proto_key k.

(** [name in b3] *)
Definition in_b3 (E : env) (k : string) : bool :=
  match b3 E k with Some _ => true | None => is_proto_key k end.

(** The double quote character. *)
Definition dq : string := String (ascii_of_nat 34) EmptyString.

(** The message of [EvalError('BehaviorTree.load: Invalid node name + "' +
    spec.name + '".')]. *)
Definition invalid_name_message (name : string) : string :=
  "BehaviorTree.load: Invalid node name + " ++ dq ++ name ++ dq ++ ".".

(** The first [projectData.trees.forEach]: one BehaviorTree per tree
    specification, registered under [tree.id] (part_000 lines 142-151). The
    id [__proto__] is stored as an ordinary key (see [plain_tree_ids]). *)
Definition create_tree (trees : jsmap nat) (t : tree_spec) : M (jsmap nat) :=
  l <- new_BehaviorTree ;;
  update l (fun o => set_id o (str_or (ts_id t) (o_id o))) ;;
  update l (fun o => set_title o (str_or (ts_title t) (o_title o))) ;;
  update l (fun o => set_description o (str_or (ts_description t) (o_description o))) ;;
  update l (fun o => set_properties o (props_or (ts_properties t) (o_properties o))) ;;
  ret (put trees (ts_id t) l).

Definition create_trees (p : project) : M (jsmap nat) :=
  foldM create_tree [] (p_trees p).

(** One iteration of the instantiation loop (part_000 lines 159-186). In the
    [forEach] callback of strict-mode code [this] is [undefined], so
    [this._nodes[spec.name]] throws. The node id [__proto__] is stored as an
    ordinary key (see [plain_node_ids]). *)
Definition load_node (E : env) (names : list string) (trees : jsmap nat)
  (temp : jsmap jval) (entry : string * node_spec) : M (jsmap jval) :=
  let '(id, spec) := entry in
  let t := get_tree trees (ns_name spec) in
  if truthy t then ret (put temp id t)
  else if in_names names (ns_name spec) then
    throw (TypeError "Cannot read properties of undefined (reading '_nodes')")
  else match b3 E (ns_name spec) with
  | Some cls =>
      l <- construct (genv E) cls (ns_properties spec) ;;
      update l (fun o => set_id o (str_or (ns_id spec) (o_id o))) ;;
      update l (fun o => set_title o (str_or (ns_title spec) (o_title o))) ;;
      update l (fun o => set_description o (str_or (ns_description spec) (o_description o))) ;;
      update l (fun o => set_properties o (props_or (ns_properties spec) (o_properties o))) ;;
      ret (put temp id (JLoc l))
  | None => throw (EvalError (invalid_name_message (ns_name spec)))
  end.

(** One iteration of the wiring loop (part_000 lines 188-200). *)
Definition connect_node (temp : jsmap jval) (u : unit) (entry : string * node_spec)
  : M unit :=
  let '(id, spec) := entry in
  match get_temp temp id with
  | JUndef => throw (TypeError "Cannot read properties of undefined (reading 'category')")
  | JInherited _ => ret tt   (* a function: its category is undefined *)
  | JLoc l =>
      o <- read l ;;
      match o_category o, ns_children spec, ns_child spec with
      | Some COMPOSITE, Some cids, _ =>
          foldM (fun _ cid => update l (fun o => push_child o (get_temp temp cid)))
            tt cids
      | Some DECORATOR, _, Some c =>
          if String.eqb c "" then ret tt
          else update l (fun o => set_child o (get_temp temp c))
      | _, _, _ => ret tt
      end
  end.

(** The body of the second [projectData.trees.forEach] (lines 155-204). *)
Definition load_tree (E : env) (names : list string) (trees : jsmap nat)
  (u : unit) (t : tree_spec) : M unit :=
  temp <- foldM (load_node E names trees) [] (ts_nodes t) ;;
  foldM (connect_node temp) tt (ts_nodes t) ;;
  match own trees (ts_id t) with
  | Some l => update l (fun o => set_root o (get_temp temp (ts_root t)))
  | None => throw (TypeError "Cannot set properties of undefined (setting 'root')")
  end.

(** No tree id of the project is [__proto__]. A write
    [trees["__proto__"] = tempTree] replaces the prototype of [trees] in
    JavaScript instead of adding a key, after which a missing name resolves
    through that BehaviorTree; [create_tree] stores an ordinary key instead,
    so results about the lookups in [trees] assume this. *)
Definition plain_tree_ids (p : project) : bool :=
  forallb (fun t => negb (String.eqb (ts_id t) "__proto__")) (p_trees p).

(** No node id of the tree is [__proto__]: the same holds of
    [tempNodes[id] = node] in [load_node], so results about the lookups of
    missing ids in [tempNodes] assume this. *)
Definition plain_node_ids (t : tree_spec) : bool :=
  forallb (fun e => negb (String.eqb (fst e) "__proto__")) (ts_nodes t).

(** [names = names || {}]: the own keys of the custom-node object. *)
Definition names_obj (names : option (list string)) : list string :=
  match names with Some n => n | None => [] end.

(** What a call of [b3.LoadProject] ends in. *)
Inductive outcome :=
  | Returned (trees : jsmap nat) (s : St)
  | ReturnedUndefined (console_errors : list string)
  | Threw (e : exn).

(** [b3.LoadProject(projectData, names)] from the state [s]. [names] is the
    custom-node object's own keys ([None] when the argument is omitted). *)
Definition LoadProject (E : env) (projectData : input) (names : option (list string))
  (s : St) : outcome :=
  if negb (String.eqb (typeof projectData) "object")
  then ReturnedUndefined ["No project data provided."]
  else
    let names := names_obj names in
    match projectData with
    | IObject (Some p) =>
        let run := (trees <- create_trees p ;;
                    foldM (load_tree E names trees) tt (p_trees p) ;;
                    ret trees) in
        match run s with
        | Ok trees s' => Returned trees s'
        | Exc e => Threw e
        end
    | INull => Threw (TypeError "Cannot read properties of null (reading 'trees')")
    | _ => Threw (TypeError "Cannot read properties of undefined (reading 'forEach')")
    end.

End Loader.

(** ** [b3.createUUID] (part_000 lines 19-35) *)

Module UUID.

(** [var hexDigits = "0123456789abcdef"] *)
Definition hexDigits : string := "0123456789abcdef".

(** [str.substr(start, 1)] for a start [>= 0]: the character at [start],
    or the empty string past the end. *)
Definition substr1 (str : string) (start : nat) : string := String.substring start 1 str.

(** [ToInt32(ToNumber(v))] for a string [v] of at most one character, the
    only strings the function converts: a decimal digit gives its value;
    the empty string and a white-space character give 0; any other
    character gives NaN, which ToInt32 turns into 0. *)
Definition int32_of_short_string (v : string) : Z :=
  match v with
  | String c EmptyString =>
      let n := nat_of_ascii c in
      if Nat.leb 48 n && Nat.leb n 57 then Z.of_nat (n - 48) else 0
  | _ => 0
  end.

(** The function, with [rand i] the value of
    [Math.floor(Math.random() * 0x10)] at the [i]-th iteration of the loop.
    The array [s] is a list of strings; its writes after the loop are in
    range. *)
Definition createUUID (rand : nat -> nat) : string :=
  (* for (var i = 0; i < 36; i++) s[i] = hexDigits.substr(..., 1); *)
  let s := map (fun i => substr1 hexDigits (rand i)) (seq 0 36) in
  (* s[14] = "4"; *)
  let s := Loader.replace s 14 "4" in
  (* s[19] = hexDigits.substr((s[19] & 0x3) | 0x8, 1); *)
  let s := Loader.replace s 19
             (substr1 hexDigits
                (Z.to_nat (Z.lor (Z.land (int32_of_short_string (nth 19 s "")) 3) 8))) in
  (* s[8] = s[13] = s[18] = s[23] = "-"; *)
  let s := Loader.replace s 23 "-" in
  let s := Loader.replace s 18 "-" in
  let s := Loader.replace s 13 "-" in
  let s := Loader.replace s 8 "-" in
  (* s.join("") *)
  String.concat "" s.

End UUID.

(** ** [b3.Class] (part_000 lines 72-97) *)

Module JSClass.

(** Values held by prototype objects: data, functions created by the
    program (each with its identity) and the built-in functions of
    [Object.prototype]. *)
Inductive value :=
  | VUndef
  | VNull
  | VBool (b : bool)
  | VNum (z : Z)
  | VStr (s : string)
  | VFun (f : nat)
  | VBuiltin (name : string).

(** JavaScript truthiness (NaN is not among the modelled numbers). *)
Definition truthy_value (v : value) : bool :=
  match v with
  | VUndef | VNull => false
  | VBool b => b
  | VNum z => negb (Z.eqb z 0)
  | VStr s => negb (String.eqb s "")
  | VFun _ | VBuiltin _ => true
  end.

(** A prototype chain: an object with its own properties and its
    prototype, ending at [Object.prototype]. *)
Inductive proto :=
  | ObjectPrototype
  | PObj (own : Loader.jsmap value) (parent : proto).

(** Property lookup [p[k]] along the chain. *)
Fixpoint lookup (p : proto) (k : string) : value :=
  match p with
  | ObjectPrototype => if Loader.is_proto_key k then VBuiltin k else VUndef
  | PObj o parent =>
      match Loader.own o k with Some v => v | None => lookup parent k end
  end.

(** [p[k] = v] on an object of the program ([Object.prototype] is never
    written by [Class]). *)
Definition set_own (p : proto) (k : string) (v : value) : proto :=
  match p with
  | ObjectPrototype => ObjectPrototype
  | PObj o parent => PObj (Loader.put o k v) parent
  end.

(** A class: the function [cls] (its identity) and [cls.prototype]. *)
Record cls := mkCls { cls_fun : nat; cls_prototype : proto }.

(** [b3.Class(baseClass, properties)], with [baseClass] absent or a class,
    and [properties] absent or an object literal given by its key/value
    pairs in order. [next] is the identity the next function created gets;
    the new value of [next] is returned. *)
Definition Class (baseClass : option cls) (properties : option (list (string * value)))
  (next : nat) : cls * nat :=
  (* var cls = function(params) { this.initialize(params || {}); };
     its default prototype is { constructor: cls } *)
  let f := next in
  let p := PObj [("constructor", VFun f)] ObjectPrototype in
  (* if (baseClass) { cls.prototype = Object.create(baseClass.prototype);
                      cls.prototype.constructor = cls; } *)
  let p := match baseClass with
           | Some b => set_own (PObj [] (cls_prototype b)) "constructor" (VFun f)
           | None => p
           end in
  (* if (!cls.prototype.initialize) cls.prototype.initialize = function() {}; *)
  let '(p, next) :=
    if negb (truthy_value (lookup p "initialize"))
    then (set_own p "initialize" (VFun (S next)), S (S next))
    else (p, S next) in
  (* if (properties) for (var key in properties) cls.prototype[key] = properties[key]; *)
  let p := match properties with
           | Some ps => fold_left (fun p kv => set_own p (fst kv) (snd kv)) ps p
           | None => p
           end in
  (mkCls f p, next).

End JSClass.

(** * Properties *)

Module ParallelProofs.
Import Parallel.

Section Run.
Variable St : Type.

Lemma bump_spec (c : counter) (r s : status) :
  bump c r s = c s + (if status_eqb s r then 1 else 0).
Proof. unfold bump; destruct r, s; simpl; rewrite ?Z.add_0_r; reflexivity. Qed.

Lemma count_cons (s r : status) (l : list status) :
  count s (r :: l) = (if status_eqb s r then 1 else 0) + count s l.
Proof.
  unfold count; cbn [filter]; destruct (status_eqb s r); cbn [List.length]; lia.
Qed.

(** The counter after the loop is the initial counter plus the tally of the
    outcomes in the trace. *)
Lemma run_children_counts (cs : list (child St)) (c : counter) (st : St) (s : status) :
  fst (fst (run_children cs c st)) s = c s + count s (map snd (snd (run_children cs c st))).
Proof.
  revert c st; induction cs as [|n rest IH]; intros c st; simpl.
  - unfold count; simpl; lia.
  - destruct (child_execute n st) as [r st1] eqn:Ex.
    specialize (IH (bump c r) st1).
    destruct (run_children rest (bump c r) st1) as [[c2 st2] tr]; simpl in *.
    rewrite IH, count_cons, bump_spec. lia.
Qed.

(** The loop calls each child's [_execute] once, in list order, threading
    the state through the calls. *)
Lemma run_children_trace (cs : list (child St)) (c : counter) (st : St) :
  map fst (snd (run_children cs c st)) = cs /\
  snd (fst (run_children cs c st)) =
    fold_left (fun st n => snd (child_execute n st)) cs st.
Proof.
  revert c st; induction cs as [|n rest IH]; intros c st; simpl; [auto|].
  destruct (child_execute n st) as [r st1] eqn:Ex; simpl.
  specialize (IH (bump c r) st1).
  destruct (run_children rest (bump c r) st1) as [[c2 st2] tr]; simpl in *.
  destruct IH as [IH1 IH2]; split; [congruence|exact IH2].
Qed.

End Run.

Lemma tick_unfold {St} (F S : Z) (children : list (child St)) (st : St) :
  let '(c, st', tr) := run_children children counter0 st in
  tick F S children st =
    ((if c SUCCESS >=? S then SUCCESS
      else if c FAILURE >=? F then FAILURE else RUNNING), st', tr).
Proof.
  unfold tick; destruct (run_children children counter0 st) as [[c st'] tr].
  destruct (c SUCCESS >=? S), (c FAILURE >=? F); reflexivity.
Qed.

Lemma all_error_counts (l : list status) :
  Forall (fun r => r = ERROR) l -> count SUCCESS l = 0 /\ count FAILURE l = 0.
Proof.
  induction 1 as [|r l Hr _ [IH1 IH2]]; [split; reflexivity|].
  subst r; rewrite !count_cons; simpl; lia.
Qed.

(** C1: one tick returns SUCCESS exactly when at least [S] children returned
    SUCCESS; otherwise FAILURE exactly when at least [F] children returned
    FAILURE; otherwise RUNNING. *)
Theorem parallel_tick_threshold_rule {St} (F S : Z) (children : list (child St))
  (st : St) :
  let r := fst (fst (tick F S children st)) in
  let outs := map snd (snd (tick F S children st)) in
  (r = SUCCESS <-> count SUCCESS outs >= S) /\
  (count SUCCESS outs < S -> (r = FAILURE <-> count FAILURE outs >= F)) /\
  (count SUCCESS outs < S -> count FAILURE outs < F -> r = RUNNING).
Proof.
  pose proof (tick_unfold F S children st) as T.
  pose proof (run_children_counts St children counter0 st SUCCESS) as CS.
  pose proof (run_children_counts St children counter0 st FAILURE) as CF.
  destruct (run_children children counter0 st) as [[c st'] tr]; simpl in *.
  rewrite T; simpl. unfold counter0 in *.
  destruct (Z.geb_spec (c SUCCESS) S) as [HS|HS];
  destruct (Z.geb_spec (c FAILURE) F) as [HF|HF];
  repeat split; intros; try discriminate; try reflexivity; lia.
Qed.

(** C6: one tick calls [_execute] on every child exactly once, in list
    order, whatever the outcomes; the state is threaded through the calls. *)
Theorem parallel_tick_executes_all_children {St} (F S : Z)
  (children : list (child St)) (st : St) :
  map fst (snd (tick F S children st)) = children /\
  snd (fst (tick F S children st)) =
    fold_left (fun st n => snd (child_execute n st)) children st.
Proof.
  pose proof (tick_unfold F S children st) as T.
  pose proof (run_children_trace St children counter0 st) as [T1 T2].
  destruct (run_children children counter0 st) as [[c st'] tr]; simpl in *.
  rewrite T; simpl. split; assumption.
Qed.

(** C8: with no children, tick returns SUCCESS if [S <= 0], else FAILURE if
    [F <= 0], else RUNNING. *)
Theorem parallel_tick_no_children {St} (F S : Z) (st : St) :
  fst (fst (tick F S (@nil (child St)) st)) =
    (if Z.leb S 0 then SUCCESS else if Z.leb F 0 then FAILURE else RUNNING).
Proof.
  unfold tick; simpl; unfold counter0.
  destruct (Z.geb_spec 0 S), (Z.leb_spec S 0); try lia;
  destruct (Z.geb_spec 0 F), (Z.leb_spec F 0); try lia; reflexivity.
Qed.

(** C10: tick never returns ERROR; in particular when every child returns
    ERROR the result is decided by the thresholds with zero SUCCESS and zero
    FAILURE counts. *)
Theorem parallel_tick_never_error {St} (F S : Z) (children : list (child St))
  (st : St) :
  fst (fst (tick F S children st)) <> ERROR /\
  (Forall (fun r => r = ERROR) (map snd (snd (tick F S children st))) ->
   fst (fst (tick F S children st)) =
     (if Z.leb S 0 then SUCCESS else if Z.leb F 0 then FAILURE else RUNNING)).
Proof.
  pose proof (tick_unfold F S children st) as T.
  pose proof (run_children_counts St children counter0 st SUCCESS) as CS.
  pose proof (run_children_counts St children counter0 st FAILURE) as CF.
  destruct (run_children children counter0 st) as [[c st'] tr]; simpl in *.
  rewrite T; simpl. unfold counter0 in *. split.
  - destruct (c SUCCESS >=? S), (c FAILURE >=? F); discriminate.
  - intros Hall. apply all_error_counts in Hall as [H0 H1].
    rewrite CS, CF, H0, H1; simpl.
    destruct (Z.geb_spec 0 S), (Z.leb_spec S 0); try lia;
    destruct (Z.geb_spec 0 F), (Z.leb_spec F 0); try lia; reflexivity.
Qed.

(** The strict-mode initializer throws as soon as no global [parameters]
    binding exists, whatever the settings. *)
Theorem parallel_initialize_throws (s : settings) :
  initialize {| has_global_parameters := false |} s =
    InitThrows "ReferenceError: parameters is not defined".
Proof. reflexivity. Qed.

End ParallelProofs.

Module LoaderProofs.
Import Loader.
Local Open Scope nat_scope.
Local Open Scope list_scope.

(** ** The monad *)

Lemma bind_inv {A B} (m : M A) (k : A -> M B) (s : St) :
  bind m k s = match m s with Ok a s' => k a s' | Exc e => Exc e end.
Proof. reflexivity. Qed.

Lemma bind_ok {A B} (m : M A) (k : A -> M B) (s : St) b s' :
  bind m k s = Ok b s' -> exists a s1, m s = Ok a s1 /\ k a s1 = Ok b s'.
Proof.
  rewrite bind_inv; destruct (m s) as [a s1|e]; [eauto|discriminate].
Qed.

Lemma bind_exc {A B} (m : M A) (k : A -> M B) (s : St) e :
  bind m k s = Exc e ->
  m s = Exc e \/ exists a s1, m s = Ok a s1 /\ k a s1 = Exc e.
Proof.
  rewrite bind_inv; destruct (m s) as [a s1|e']; [eauto|intros H; inversion H; auto].
Qed.

(** A step that succeeds on every element makes the fold succeed; a
    successful fold has run a successful step on every element. *)
Lemma foldM_ok_each {A B} (f : B -> A -> M B) (l : list A) :
  forall b s b' s', foldM f b l s = Ok b' s' ->
  forall x, In x l -> exists b0 s0 b1 s1, f b0 x s0 = Ok b1 s1.
Proof.
  induction l as [|y r IH]; intros b s b' s' H x Hx; [destruct Hx|].
  simpl in H; apply bind_ok in H as (b1 & s1 & H1 & H2).
  destruct Hx as [<-|Hx]; [eauto|eapply IH; eauto].
Qed.

(** An exception escaping a fold escapes one of its steps. *)
Lemma foldM_exc_step {A B} (f : B -> A -> M B) (l : list A) :
  forall b s e, foldM f b l s = Exc e ->
  exists x b0 s0, In x l /\ f b0 x s0 = Exc e.
Proof.
  induction l as [|y r IH]; intros b s e H; [discriminate|].
  simpl in H; apply bind_exc in H as [H|(b1 & s1 & _ & H)].
  - exists y, b, s; split; [left; reflexivity|exact H].
  - destruct (IH _ _ _ H) as (x & b0 & s0 & Hx & Hf).
    exists x, b0, s0; split; [right; exact Hx|exact Hf].
Qed.

(** ** The heap *)

Lemma length_replace {A} (l : list A) n x : List.length (replace l n x) = List.length l.
Proof. revert n; induction l; intros [|n]; simpl; auto. Qed.

Lemma nth_replace {A} (l : list A) n m x d :
  nth m (replace l n x) d =
    if Nat.eqb m n && Nat.ltb n (List.length l) then x else nth m l d.
Proof.
  revert n m; induction l as [|y r IH]; intros [|n] [|m]; simpl; auto.
  destruct (Nat.eqb m n); reflexivity.
Qed.

Lemma nth_app_last {A} (h : list A) (o d : A) : nth (List.length h) (h ++ [o]) d = o.
Proof. induction h; simpl; auto. Qed.

Lemma nth_app_old {A} (h : list A) (o d : A) l :
  l < List.length h -> nth l (h ++ [o]) d = nth l h d.
Proof. intros; apply app_nth1; auto. Qed.

Lemma replace_app_last {A} (h : list A) (o o' : A) :
  replace (h ++ [o]) (List.length h) o' = h ++ [o'].
Proof. induction h; simpl; f_equal; auto. Qed.

(** ** The first pass *)

(** The BehaviorTree object made for a tree specification, given the
    number of the generated id. *)
Definition tree_obj_of (t : tree_spec) (n : nat) : obj :=
  mkObj KTree None (str_or (ts_id t) (FUuid n)) (str_or (ts_title t) FUndef)
    (str_or (ts_description t) FUndef) (props_or (ts_properties t) (Some []))
    [] JUndef JUndef 0 0.

Lemma create_tree_spec (trees : jsmap nat) (t : tree_spec) (s : St) :
  create_tree trees t s =
    Ok (put trees (ts_id t) (List.length (heap s)))
       (mkSt (heap s ++ [tree_obj_of t (uuids s)]) (S (uuids s))).
Proof.
  destruct s as [h u]; cbv [create_tree new_BehaviorTree update
    read write obj_at bind ret createUUID alloc]; simpl.
  repeat (rewrite ?nth_app_last, ?replace_app_last).
  reflexivity.
Qed.
Definition injective (m : jsmap nat) : Prop :=
  forall k1 k2 l, own m k1 = Some l -> own m k2 = Some l -> k1 = k2.

(** What the tree mapping and the heap satisfy before and after the first
    pass: every registered location is allocated and holds a BehaviorTree,
    and distinct keys name distinct trees. *)
Definition trees_inv (m : jsmap nat) (s : St) : Prop :=
  (forall k l, own m k = Some l ->
     l < List.length (heap s) /\ o_kind (obj_at s l) = KTree) /\
  injective m.

Lemma own_put {V} (m : jsmap V) k v k' :
  own (put m k v) k' = if String.eqb k' k then Some v else own m k'.
Proof. reflexivity. Qed.

Lemma obj_at_app (h ext : list obj) u l :
  l < List.length h -> obj_at (mkSt (h ++ ext) u) l = obj_at (mkSt h u) l.
Proof. intros; unfold obj_at; simpl; apply app_nth1; auto. Qed.

Lemma create_trees_props (ts : list tree_spec) :
  forall trees0 s, trees_inv trees0 s ->
  exists trees s1,
    foldM create_tree trees0 ts s = Ok trees s1 /\
    (exists ext, heap s1 = heap s ++ ext) /\
    trees_inv trees s1 /\
    (forall k, ~ In k (map ts_id ts) -> own trees k = own trees0 k) /\
    (forall k, In k (map ts_id ts) -> exists l, own trees k = Some l) /\
    (NoDup (map ts_id ts) -> forall t, In t ts ->
       exists l n, own trees (ts_id t) = Some l /\ obj_at s1 l = tree_obj_of t n).
Proof.
  induction ts as [|t0 r IH]; intros trees0 s Hinv.
  - exists trees0, s; split; [reflexivity|]; split.
    + exists []; rewrite app_nil_r; reflexivity.
    + split; [exact Hinv|]; split; [auto|]; split; [intros k []|intros _ t []].
  - simpl. rewrite bind_inv, create_tree_spec.
    set (l0 := List.length (heap s)).
    set (s' := mkSt (heap s ++ [tree_obj_of t0 (uuids s)]) (S (uuids s))).
    assert (Hinv' : trees_inv (put trees0 (ts_id t0) l0) s').
    { destruct Hinv as [H1 H2]. split.
      - intros k l; rewrite own_put; destruct (String.eqb k (ts_id t0)).
        + intros [= <-]; subst s'; unfold obj_at; simpl; split.
          * rewrite length_app; simpl; lia.
          * unfold l0; rewrite nth_app_last; reflexivity.
        + intros Hk; destruct (H1 _ _ Hk) as [Hl Hkind]; split.
          * subst s'; simpl; rewrite length_app; simpl; lia.
          * subst s'; destruct s as [h u]; rewrite obj_at_app; auto.
      - intros k1 k2 l; rewrite !own_put.
        destruct (String.eqb k1 (ts_id t0)) eqn:E1, (String.eqb k2 (ts_id t0)) eqn:E2.
        + apply String.eqb_eq in E1, E2; congruence.
        + intros [= <-] Hk2; destruct (H1 _ _ Hk2); unfold l0 in *; lia.
        + intros Hk1 [= <-]; destruct (H1 _ _ Hk1); unfold l0 in *; lia.
        + apply H2. }
    destruct (IH _ _ Hinv') as (trees & s1 & Hrun & [ext Hext] & Hinv1 & Hout & Hin & Hnd).
    exists trees, s1; split; [exact Hrun|]. split; [|split; [exact Hinv1|split; [|split]]].
    + exists ([tree_obj_of t0 (uuids s)] ++ ext); rewrite Hext; subst s'; simpl.
      rewrite <- app_assoc; reflexivity.
    + intros k Hk. rewrite Hout by (intros H; apply Hk; right; exact H).
      rewrite own_put. destruct (String.eqb k (ts_id t0)) eqn:E; [|reflexivity].
      apply String.eqb_eq in E; subst k; exfalso; apply Hk; left; reflexivity.
    + intros k [Hk|Hk].
      * destruct (in_dec string_dec k (map ts_id r)) as [Hr|Hr]; [apply Hin; exact Hr|].
        rewrite Hout by exact Hr. rewrite own_put, <- Hk, String.eqb_refl; eauto.
      * apply Hin; exact Hk.
    + intros Hnd0 t [<-|Ht].
      * inversion Hnd0 as [|? ? Hni _]; subst.
        exists l0, (uuids s); split.
        -- rewrite Hout by exact Hni; rewrite own_put, String.eqb_refl; reflexivity.
        -- destruct s1 as [h1 u1]; simpl in Hext; subst h1.
           unfold obj_at; simpl; rewrite <- app_assoc, app_nth2 by (unfold l0; lia).
           unfold l0; rewrite Nat.sub_diag; reflexivity.
      * inversion Hnd0; subst; apply Hnd; auto.
Qed.

(** The first pass never fails, and it registers every tree of the
    project. *)
Lemma create_trees_ok (p : project) (s : St) :
  exists trees s1,
    create_trees p s = Ok trees s1 /\
    (exists ext, heap s1 = heap s ++ ext) /\
    trees_inv trees s1 /\
    (forall k, own trees k <> None <-> In k (map ts_id (p_trees p))) /\
    (NoDup (map ts_id (p_trees p)) -> forall t, In t (p_trees p) ->
       exists l n, own trees (ts_id t) = Some l /\ obj_at s1 l = tree_obj_of t n).
Proof.
  assert (H0 : trees_inv [] s) by (split; [intros k l [=]|intros k1 k2 l [=]]).
  destruct (create_trees_props (p_trees p) [] s H0)
    as (trees & s1 & Hrun & Hext & Hinv & Hout & Hin & Hnd).
  exists trees, s1; split; [exact Hrun|]; split; [exact Hext|].
  split; [exact Hinv|]; split; [|exact Hnd].
  intros k; split.
  - intros Hk. destruct (in_dec string_dec k (map ts_id (p_trees p))) as [Hi|Hi]; auto.
    exfalso; apply Hk; rewrite Hout by exact Hi; reflexivity.
  - intros Hi; destruct (Hin _ Hi) as [l Hl]; congruence.
Qed.

(** ** The second pass *)

(** Allocated objects keep their kind and their [root] field. *)
Definition frame (s s' : St) : Prop :=
  List.length (heap s) <= List.length (heap s') /\
  forall l, l < List.length (heap s) ->
    o_root (obj_at s' l) = o_root (obj_at s l) /\
    o_kind (obj_at s' l) = o_kind (obj_at s l).

Definition keeps {A} (m : M A) : Prop :=
  forall s a s', m s = Ok a s' -> frame s s'.

Lemma frame_refl s : frame s s.
Proof. split; auto. Qed.

Lemma frame_trans s1 s2 s3 : frame s1 s2 -> frame s2 s3 -> frame s1 s3.
Proof.
  intros [L1 H1] [L2 H2]; split; [lia|].
  intros l Hl; destruct (H1 l Hl) as [R1 K1]; destruct (H2 l ltac:(lia)) as [R2 K2].
  split; congruence.
Qed.

Lemma keeps_ret {A} (a : A) : keeps (ret a).
Proof. intros s b s' [= _ <-]; apply frame_refl. Qed.

Lemma keeps_throw {A} e : keeps (@throw A e).
Proof. intros s b s' [=]. Qed.

Lemma keeps_bind {A B} (m : M A) (k : A -> M B) :
  keeps m -> (forall a, keeps (k a)) -> keeps (bind m k).
Proof.
  intros Hm Hk s b s' H; apply bind_ok in H as (a & s1 & H1 & H2).
  eapply frame_trans; [eapply Hm; eauto|eapply Hk; eauto].
Qed.

Lemma keeps_foldM {A B} (f : B -> A -> M B) :
  (forall b x, keeps (f b x)) -> forall l b, keeps (foldM f b l).
Proof.
  intros Hf l; induction l as [|x r IH]; intros b; simpl;
    [apply keeps_ret|apply keeps_bind; auto].
Qed.

Lemma keeps_createUUID : keeps createUUID.
Proof. intros [h u] a s' [= _ <-]; split; auto. Qed.

Lemma keeps_alloc o : keeps (alloc o).
Proof.
  intros [h u] a s' [= _ <-]; split; simpl; [rewrite length_app; lia|].
  intros l Hl; unfold obj_at; simpl; rewrite app_nth1 by exact Hl; auto.
Qed.

Lemma update_state l f s :
  update l f s = Ok tt (mkSt (replace (heap s) l (f (obj_at s l))) (uuids s)).
Proof. reflexivity. Qed.

Lemma obj_at_update l f s l' :
  obj_at (mkSt (replace (heap s) l (f (obj_at s l))) (uuids s)) l' =
    if Nat.eqb l' l && Nat.ltb l (List.length (heap s)) then f (obj_at s l)
    else obj_at s l'.
Proof. unfold obj_at at 1; simpl; rewrite nth_replace; reflexivity. Qed.

Lemma obj_at_replace s l o u l' :
  obj_at (mkSt (replace (heap s) l o) u) l' =
    if Nat.eqb l' l && Nat.ltb l (List.length (heap s)) then o else obj_at s l'.
Proof. unfold obj_at at 1; simpl; rewrite nth_replace; reflexivity. Qed.

Lemma keeps_update l f :
  (forall o, o_root (f o) = o_root o /\ o_kind (f o) = o_kind o) ->
  keeps (update l f).
Proof.
  intros Hf s a s' H; rewrite update_state in H; injection H as _ <-.
  split; [simpl; rewrite length_replace; lia|].
  intros l' _; rewrite obj_at_update.
  destruct (Nat.eqb l' l && Nat.ltb l (List.length (heap s))) eqn:E; [|auto].
  apply andb_true_iff in E as [E _]; apply Nat.eqb_eq in E; subst; apply Hf.
Qed.

Ltac keeps_tac :=
  repeat first
    [ apply keeps_ret | apply keeps_throw | apply keeps_createUUID
    | apply keeps_alloc
    | apply keeps_update; intros; split; reflexivity
    | apply keeps_bind; [|intros] ].

Lemma keeps_construct ge m p : keeps (construct ge m p).
Proof.
  destruct m; simpl; unfold new_node_class, new_Parallel; keeps_tac.
  destruct (Parallel.initialize _ _); keeps_tac.
Qed.

Lemma keeps_load_node E names trees temp entry :
  keeps (load_node E names trees temp entry).
Proof.
  destruct entry as [id spec]; unfold load_node.
  destruct (truthy _); [apply keeps_ret|].
  destruct (in_names _ _); [apply keeps_throw|].
  destruct (b3 E _); [|apply keeps_throw].
  apply keeps_bind; [apply keeps_construct|intros]; keeps_tac.
Qed.

Lemma keeps_connect_node temp u entry : keeps (connect_node temp u entry).
Proof.
  destruct entry as [id spec]; unfold connect_node.
  destruct (get_temp temp id); [apply keeps_throw| |apply keeps_ret].
  apply keeps_bind; [intros s a s' [= _ <-]; apply frame_refl|intros o].
  destruct (o_category o) as [[]|], (ns_children spec), (ns_child spec);
    try apply keeps_ret;
    try (apply keeps_foldM; intros; keeps_tac);
    try (destruct (String.eqb _ _); keeps_tac).
Qed.

(** One successful instantiation step binds the node id to a defined value,
    and to the referenced tree when the name is a property of [trees]. *)
Lemma load_node_put E names trees temp id spec s temp' s' :
  load_node E names trees temp (id, spec) s = Ok temp' s' ->
  exists v, temp' = put temp id v /\ v <> JUndef /\
    (truthy (get_tree trees (ns_name spec)) = true ->
     v = get_tree trees (ns_name spec)).
Proof.
  unfold load_node.
  destruct (truthy (get_tree trees (ns_name spec))) eqn:T.
  - intros [= <- _]; exists (get_tree trees (ns_name spec)); split; [reflexivity|].
    split; [intros HU; rewrite HU in T; discriminate|auto].
  - destruct (in_names _ _); [intros [=]|].
    destruct (b3 E _); [|intros [=]].
    intros H; repeat (let a := fresh "a" in let s1 := fresh "s" in
                      apply bind_ok in H as (a & s1 & _ & H)).
    injection H as <- _. eexists; split; [reflexivity|].
    split; [discriminate|intros [=]].
Qed.

Lemma load_nodes_fold E names trees (nodes : list (string * node_spec)) :
  forall temp0 s temp s',
  foldM (load_node E names trees) temp0 nodes s = Ok temp s' ->
  (forall k, ~ In k (map fst nodes) -> own temp k = own temp0 k) /\
  (forall k, In k (map fst nodes) -> exists v, own temp k = Some v /\ v <> JUndef) /\
  (NoDup (map fst nodes) -> forall id spec, In (id, spec) nodes ->
     truthy (get_tree trees (ns_name spec)) = true ->
     own temp id = Some (get_tree trees (ns_name spec))).
Proof.
  induction nodes as [|[id0 spec0] r IH]; intros temp0 s temp s' H.
  - injection H as <- _; split; [auto|split; [intros k []|intros _ id spec []]].
  - simpl in H; apply bind_ok in H as (temp1 & s1 & H1 & H2).
    apply load_node_put in H1 as (v & -> & Hv & Hvt).
    destruct (IH _ _ _ _ H2) as (Hout & Hin & Hnd).
    split; [|split].
    + intros k Hk; simpl in Hk.
      rewrite Hout by tauto; rewrite own_put.
      destruct (String.eqb k id0) eqn:Ek; [|reflexivity].
      apply String.eqb_eq in Ek; subst; tauto.
    + intros k [<-|Hk]; [|apply Hin; exact Hk].
      destruct (in_dec string_dec id0 (map fst r)) as [Hr|Hr]; [apply Hin; exact Hr|].
      rewrite Hout by exact Hr; rewrite own_put, String.eqb_refl; eauto.
    + intros Hnd0 id spec [Ex|Hx] Ht; inversion Hnd0 as [|? ? Hni Hnd1]; subst.
      * injection Ex as <- <-. rewrite Hout by exact Hni.
        rewrite own_put, String.eqb_refl, Hvt by exact Ht; reflexivity.
      * apply Hnd; auto.
Qed.

(** ** Steps that cannot throw *)

Definition total {A} (m : M A) : Prop := forall s, exists a s', m s = Ok a s'.

Lemma total_bind {A B} (m : M A) (k : A -> M B) :
  total m -> (forall a, total (k a)) -> total (bind m k).
Proof.
  intros Hm Hk s; destruct (Hm s) as (a & s1 & E).
  rewrite bind_inv, E; apply Hk.
Qed.

Lemma total_foldM {A B} (f : B -> A -> M B) :
  (forall b x, total (f b x)) -> forall l b, total (foldM f b l).
Proof.
  intros Hf l; induction l as [|x r IH]; intros b; simpl.
  - intros s; eauto.
  - apply total_bind; auto.
Qed.

Lemma total_update l f : total (update l f).
Proof. intros s; eexists; eexists; apply update_state. Qed.

(** The wiring step of a node bound to a defined value does not throw. *)
Lemma total_ret {A} (a : A) : total (ret a).
Proof. intros s; exists a, s; reflexivity. Qed.

Lemma connect_node_total temp u id spec :
  (exists v, own temp id = Some v /\ v <> JUndef) ->
  total (connect_node temp u (id, spec)).
Proof.
  intros (v & Hv & Hnu); unfold connect_node, get_temp; rewrite Hv.
  destruct v as [|l|k]; [congruence| |apply total_ret].
  apply total_bind; [intros s0; eexists; eexists; reflexivity|intros o].
  destruct (o_category o) as [[]|], (ns_children spec), (ns_child spec);
    first [ apply total_ret
          | apply total_foldM; intros; apply total_update
          | destruct (String.eqb _ _); [apply total_ret|apply total_update] ].
Qed.

(** ** One tree's second pass *)

Lemma load_tree_step E names trees u t s u' s' :
  load_tree E names trees u t s = Ok u' s' ->
  exists temp s1 lt,
    foldM (load_node E names trees) [] (ts_nodes t) s = Ok temp s1 /\
    own trees (ts_id t) = Some lt /\
    List.length (heap s) <= List.length (heap s') /\
    (forall l, l < List.length (heap s) -> o_kind (obj_at s' l) = o_kind (obj_at s l)) /\
    (forall l, l < List.length (heap s) -> l <> lt ->
       o_root (obj_at s' l) = o_root (obj_at s l)) /\
    (lt < List.length (heap s) -> o_root (obj_at s' lt) = get_temp temp (ts_root t)).
Proof.
  unfold load_tree; intros H.
  apply bind_ok in H as (temp & s1 & H1 & H2).
  apply bind_ok in H2 as (u2 & s2 & H3 & H4).
  destruct (own trees (ts_id t)) as [lt|] eqn:Hlt; [|discriminate].
  rewrite update_state in H4; injection H4 as _ <-.
  assert (F : frame s s2).
  { eapply frame_trans.
    - eapply keeps_foldM; [apply keeps_load_node|exact H1].
    - eapply keeps_foldM; [apply keeps_connect_node|exact H3]. }
  destruct F as [FL FH].
  exists temp, s1, lt; split; [exact H1|]; split; [reflexivity|].
  split; [simpl; rewrite length_replace; exact FL|]. split; [|split].
  - intros l Hl; rewrite obj_at_replace.
    destruct (Nat.eqb l lt && Nat.ltb lt (List.length (heap s2))) eqn:E1.
    + apply andb_true_iff in E1 as [E1 _]; apply Nat.eqb_eq in E1; subst l.
      simpl; apply FH; exact Hl.
    + apply FH; exact Hl.
  - intros l Hl Hne; rewrite obj_at_replace.
    destruct (Nat.eqb l lt) eqn:E1; [apply Nat.eqb_eq in E1; congruence|].
    simpl; apply FH; exact Hl.
  - intros Hl; rewrite obj_at_replace, Nat.eqb_refl.
    replace (Nat.ltb lt (List.length (heap s2))) with true
      by (symmetry; apply Nat.ltb_lt; lia).
    reflexivity.
Qed.

(** ** The whole second pass *)

Lemma load_trees_fold E names trees (ts : list tree_spec) :
  forall s u s', foldM (load_tree E names trees) tt ts s = Ok u s' ->
  List.length (heap s) <= List.length (heap s') /\
  (forall l, l < List.length (heap s) -> o_kind (obj_at s' l) = o_kind (obj_at s l)) /\
  (forall l, l < List.length (heap s) ->
     (forall t, In t ts -> own trees (ts_id t) <> Some l) ->
     o_root (obj_at s' l) = o_root (obj_at s l)) /\
  (injective trees -> NoDup (map ts_id ts) ->
   forall tB lB, In tB ts -> own trees (ts_id tB) = Some lB ->
   lB < List.length (heap s) ->
   exists sB temp sB1,
     foldM (load_node E names trees) [] (ts_nodes tB) sB = Ok temp sB1 /\
     o_root (obj_at s' lB) = get_temp temp (ts_root tB)).
Proof.
  induction ts as [|t0 r IH]; intros s u s' H.
  - injection H as _ <-. split; [lia|]. split; [auto|]. split; [auto|].
    intros _ _ tB lB [].
  - simpl in H; apply bind_ok in H as ([] & s0 & H1 & H2).
    destruct (load_tree_step _ _ _ _ _ _ _ _ H1)
      as (temp & s1 & lt & Hn & Hlt & L0 & K0 & R0 & T0).
    destruct (IH _ _ _ H2) as (L1 & K1 & R1 & T1).
    split; [lia|]. split; [|split].
    + intros l Hl; rewrite K1 by lia; apply K0; exact Hl.
    + intros l Hl Hown.
      rewrite R1 by (try lia; intros t Ht; apply Hown; right; exact Ht).
      apply R0; [exact Hl|].
      intros ->; apply (Hown t0); [left; reflexivity|exact Hlt].
    + intros Hinj Hnd tB lB [<-|HtB] HlB Hl; inversion Hnd as [|? ? Hni Hnd1]; subst.
      * exists s, temp, s1; split; [exact Hn|].
        assert (lB = lt) by congruence; subst lB.
        rewrite R1 by (try lia; intros t Ht Heq;
                       apply Hni; rewrite <- (Hinj _ _ _ Heq Hlt); apply in_map; exact Ht).
        apply T0; exact Hl.
      * apply T1; auto; lia.
Qed.

(** [LoadProject] on a project object: the first pass, then the second pass
    with the complete tree mapping. *)
Lemma load_project_unfold E p names s trees s1 :
  create_trees p s = Ok trees s1 ->
  LoadProject E (IObject (Some p)) names s =
    match foldM (load_tree E (names_obj names) trees) tt (p_trees p) s1 with
    | Ok _ s' => Returned trees s'
    | Exc e => Threw e
    end.
Proof.
  intros H; unfold LoadProject; simpl.
  rewrite bind_inv, H, bind_inv.
  destruct (foldM _ tt (p_trees p) s1); reflexivity.
Qed.

(** ** Example inputs *)

(** A [b3] namespace holding two members defined in src, [b3.Parallel]
    (Parallel.js) and [b3.createUUID] (part_000); the example projects name
    no other member. No global [parameters] binding exists. *)
Definition b3_example (n : string) : option member :=
  if String.eqb n "Parallel" then Some MParallel
  else if String.eqb n "createUUID" then Some MPlainFunction
  else None.

Definition env_example : env :=
  mkEnv b3_example {| Parallel.has_global_parameters := false |}.

Definition s_init : St := mkSt [] 0.

(** A node specification with only a name. *)
Definition leaf (name : string) : node_spec :=
  mkNodeSpec name "" "" "" None None None.

(** Two trees whose root nodes name each other. *)
Definition tree_A : tree_spec := mkTreeSpec "A" "Tree A" "" None "r" [("r", leaf "B")].
Definition tree_B : tree_spec := mkTreeSpec "B" "Tree B" "" None "m" [("m", leaf "A")].
Definition proj_mutual : project := mkProject [tree_A; tree_B].

Definition mutual_trees : jsmap nat := Eval vm_compute in
  match LoadProject env_example (IObject (Some proj_mutual)) None s_init with
  | Returned t _ => t | _ => [] end.

Definition mutual_state : St := Eval vm_compute in
  match LoadProject env_example (IObject (Some proj_mutual)) None s_init with
  | Returned _ s => s | _ => s_init end.

(** ** Sub-tree references *)

(** C2 (amended): a node specification whose name is another tree's id is
    bound, with no new instance, to that tree's BehaviorTree object itself,
    registered by the first pass; when it is the referencing tree's root,
    that tree's [root] is the referenced BehaviorTree object. *)
Theorem load_project_subtree_binds_tree_object (E : env) names (p : project)
  (s : St) trees s' (tA tB : tree_spec) :
  LoadProject E (IObject (Some p)) names s = Returned trees s' ->
  NoDup (map ts_id (p_trees p)) ->
  In tA (p_trees p) -> In tB (p_trees p) ->
  NoDup (map fst (ts_nodes tB)) ->
  exists lA,
    own trees (ts_id tA) = Some lA /\ o_kind (obj_at s' lA) = KTree /\
    (forall id spec, In (id, spec) (ts_nodes tB) -> ns_name spec = ts_id tA ->
     forall s1 temp s2,
       foldM (load_node E (names_obj names) trees) [] (ts_nodes tB) s1 = Ok temp s2 ->
       own temp id = Some (JLoc lA)) /\
    (forall spec, In (ts_root tB, spec) (ts_nodes tB) -> ns_name spec = ts_id tA ->
     exists lB, own trees (ts_id tB) = Some lB /\ o_root (obj_at s' lB) = JLoc lA).
Proof.
  intros H Hnd HA HB HndB.
  destruct (create_trees_ok p s) as (trees0 & s1 & Hc & _ & [Hinv Hinj] & Hkeys & _).
  rewrite (load_project_unfold _ _ _ _ _ _ Hc) in H.
  destruct (foldM _ tt (p_trees p) s1) as [u s2|e] eqn:Hf; [|discriminate].
  injection H as <- <-.
  destruct (load_trees_fold _ _ _ _ _ _ _ Hf) as (L & K & R & T).
  destruct (own trees0 (ts_id tA)) as [lA|] eqn:HlA;
    [|exfalso; apply (proj2 (Hkeys (ts_id tA))); [apply in_map; exact HA|exact HlA]].
  assert (HgA : get_tree trees0 (ts_id tA) = JLoc lA) by (unfold get_tree; rewrite HlA; reflexivity).
  assert (Hslot : forall id spec, In (id, spec) (ts_nodes tB) -> ns_name spec = ts_id tA ->
     forall s1 temp s2,
       foldM (load_node E (names_obj names) trees0) [] (ts_nodes tB) s1 = Ok temp s2 ->
       own temp id = Some (JLoc lA)).
  { intros id spec Hin Hname s3 temp s4 Hfold.
    destruct (load_nodes_fold _ _ _ _ _ _ _ _ Hfold) as (_ & _ & Hb).
    rewrite Hb with (spec := spec); auto; rewrite Hname, HgA; reflexivity. }
  exists lA; split; [reflexivity|]. split.
  - destruct (Hinv _ _ HlA) as [Hl Hk]. rewrite K by exact Hl; exact Hk.
  - split; [exact Hslot|].
    intros spec Hin Hname.
    destruct (own trees0 (ts_id tB)) as [lB|] eqn:HlB;
      [|exfalso; apply (proj2 (Hkeys (ts_id tB))); [apply in_map; exact HB|exact HlB]].
    exists lB; split; [reflexivity|].
    destruct (T Hinj Hnd tB lB HB HlB (proj1 (Hinv _ _ HlB))) as (sB & temp & sB1 & Hfold & Hroot).
    rewrite Hroot; unfold get_temp; rewrite (Hslot _ _ Hin Hname _ _ _ Hfold); reflexivity.
Qed.

Lemma load_project_subtree_binds_tree_object_witness :
  exists lA,
    own mutual_trees "A" = Some lA /\ o_kind (obj_at mutual_state lA) = KTree /\
    (forall id spec, In (id, spec) (ts_nodes tree_B) -> ns_name spec = "A" ->
     forall s1 temp s2,
       foldM (load_node env_example (names_obj None) mutual_trees) [] (ts_nodes tree_B) s1
         = Ok temp s2 ->
       own temp id = Some (JLoc lA)) /\
    (forall spec, In ("m", spec) (ts_nodes tree_B) -> ns_name spec = "A" ->
     exists lB, own mutual_trees "B" = Some lB /\ o_root (obj_at mutual_state lB) = JLoc lA).
Proof.
  apply (load_project_subtree_binds_tree_object env_example None proj_mutual s_init
           mutual_trees mutual_state tree_A tree_B).
  - vm_compute; reflexivity.
  - simpl; repeat (apply NoDup_cons; [simpl; intuition discriminate|]); apply NoDup_nil.
  - left; reflexivity.
  - right; left; reflexivity.
  - simpl; repeat (apply NoDup_cons; [simpl; intuition discriminate|]); apply NoDup_nil.
Defined.

(** C2 counterexample: in the two trees whose roots name each other, the
    node of B that names A holds the BehaviorTree object of A (location 0),
    which is not A's own root node (A's root is B's object, location 1). *)
Lemma load_project_subtree_root_counterexample :
  LoadProject env_example (IObject (Some proj_mutual)) None s_init
    = Returned mutual_trees mutual_state /\
  own mutual_trees "A" = Some 0 /\ own mutual_trees "B" = Some 1 /\
  o_root (obj_at mutual_state 1) = JLoc 0 /\
  o_root (obj_at mutual_state 0) = JLoc 1 /\
  o_root (obj_at mutual_state 1) <> o_root (obj_at mutual_state 0).
Proof.
  vm_compute. repeat split; try reflexivity. discriminate.
Qed.

(** ** The first pass *)

(** C9 (amended): before any node is loaded, the first pass has created one
    BehaviorTree object per tree of the project, with the specification's
    id, title and description where they are non-empty strings (a fresh
    UUID, resp. [undefined], otherwise) and its properties ([{}] when
    absent); every tree id then resolves to a BehaviorTree object, and the
    second pass runs on that complete mapping for every tree, whatever the
    order of the trees. *)
Theorem load_project_creates_all_trees_first (E : env) names (p : project) (s : St) :
  NoDup (map ts_id (p_trees p)) ->
  exists trees s1,
    create_trees p s = Ok trees s1 /\
    (forall t, In t (p_trees p) ->
       exists l n, own trees (ts_id t) = Some l /\ obj_at s1 l = tree_obj_of t n) /\
    (forall k, In k (map ts_id (p_trees p)) ->
       exists l, get_tree trees k = JLoc l /\ o_kind (obj_at s1 l) = KTree) /\
    LoadProject E (IObject (Some p)) names s =
      match foldM (load_tree E (names_obj names) trees) tt (p_trees p) s1 with
      | Ok _ s' => Returned trees s'
      | Exc e => Threw e
      end.
Proof.
  intros Hnd.
  destruct (create_trees_ok p s) as (trees & s1 & Hc & _ & [Hinv _] & Hkeys & Hobj).
  exists trees, s1; split; [exact Hc|]; split; [exact (Hobj Hnd)|]; split.
  - intros k Hk.
    destruct (own trees k) as [l|] eqn:Hl; [|exfalso; exact (proj2 (Hkeys k) Hk Hl)].
    exists l; split; [unfold get_tree; rewrite Hl; reflexivity|exact (proj2 (Hinv _ _ Hl))].
  - exact (load_project_unfold _ _ _ _ _ _ Hc).
Qed.

Lemma load_project_creates_all_trees_first_witness :
  exists trees s1,
    create_trees proj_mutual s_init = Ok trees s1 /\
    (forall t, In t (p_trees proj_mutual) ->
       exists l n, own trees (ts_id t) = Some l /\ obj_at s1 l = tree_obj_of t n) /\
    (forall k, In k (map ts_id (p_trees proj_mutual)) ->
       exists l, get_tree trees k = JLoc l /\ o_kind (obj_at s1 l) = KTree) /\
    LoadProject env_example (IObject (Some proj_mutual)) None s_init =
      match foldM (load_tree env_example (names_obj None) trees) tt (p_trees proj_mutual) s1 with
      | Ok _ s' => Returned trees s'
      | Exc e => Threw e
      end.
Proof.
  apply load_project_creates_all_trees_first.
  simpl; repeat (apply NoDup_cons; [simpl; intuition discriminate|]); apply NoDup_nil.
Defined.

(** A tree whose id is the empty string. *)
Definition tree_noid : tree_spec := mkTreeSpec "" "T" "" None "r" [].

(** C9 counterexample: the created BehaviorTree does not carry the
    specification's id when that id is the empty string: it gets a fresh
    UUID instead. *)
Lemma load_project_empty_id_counterexample :
  exists trees s',
    LoadProject env_example (IObject (Some (mkProject [tree_noid]))) None s_init
      = Returned trees s' /\
    own trees "" = Some 0 /\ o_id (obj_at s' 0) = FUuid 0 /\
    o_id (obj_at s' 0) <> FStr (ts_id tree_noid).
Proof.
  do 2 eexists. split; [vm_compute; reflexivity|].
  vm_compute. repeat split; try reflexivity. discriminate.
Qed.

(** ** Unresolvable node names *)

(** A node name the loader cannot resolve: no tree has it as id, it is not a
    key of [Object.prototype], it is not in the custom-node object, and
    [b3] has no member of that name. *)
Definition unresolvable (E : env) (names : list string) (p : project) (n : string) : Prop :=
  ~ In n (map ts_id (p_trees p)) /\ is_proto_key n = false /\ ~ In n names /\
  b3 E n = None.

(** The [b3] members whose construction cannot throw. *)
Definition member_safe (ge : Parallel.global_env) (m : member) : bool :=
  match m with
  | MNodeClass _ _ | MPlainFunction => true
  | MParallel => Parallel.has_global_parameters ge
  | MNonConstructor => false
  end.

(** A node name whose loading step cannot throw: a tree id, a key of
    [Object.prototype], or a member of [b3] that is not in the custom-node
    object and whose construction cannot throw. Every other name makes its
    loading step throw. *)
Definition loads_ok (E : env) (names : list string) (p : project) (n : string) : Prop :=
  In n (map ts_id (p_trees p)) \/ is_proto_key n = true \/
  (~ In n names /\ exists m, b3 E n = Some m /\ member_safe (genv E) m = true).

Lemma total_createUUID : total createUUID.
Proof. intros s; do 2 eexists; reflexivity. Qed.

Lemma total_alloc o : total (alloc o).
Proof. intros s; do 2 eexists; reflexivity. Qed.

Lemma construct_total ge m p : member_safe ge m = true -> total (construct ge m p).
Proof.
  destruct m as [cls cat| | |]; simpl; intros Hm; try discriminate.
  - apply total_bind; [apply total_createUUID|intros; apply total_alloc].
  - unfold new_Parallel, Parallel.initialize; rewrite Hm.
    apply total_bind; [apply total_bind; [apply total_createUUID|intros; apply total_alloc]|].
    intros l; apply total_bind; [apply total_update|intros; apply total_ret].
  - apply total_alloc.
Qed.

Lemma existsb_eqb_false (names : list string) n :
  ~ In n names -> existsb (String.eqb n) names = false.
Proof.
  intros Hn; destruct (existsb (String.eqb n) names) eqn:Hx; [|reflexivity].
  apply existsb_exists in Hx as (x & Hx & Heq); apply String.eqb_eq in Heq; subst x.
  contradiction.
Qed.

Lemma load_node_unresolvable E names trees temp id spec s :
  own trees (ns_name spec) = None -> is_proto_key (ns_name spec) = false ->
  ~ In (ns_name spec) names -> b3 E (ns_name spec) = None ->
  load_node E names trees temp (id, spec) s =
    Exc (EvalError (invalid_name_message (ns_name spec))).
Proof.
  intros Ho Hp Hn Hb; unfold load_node, get_tree, in_names.
  rewrite Ho, Hp, (existsb_eqb_false _ _ Hn), Hb; reflexivity.
Qed.

Lemma own_trees_none (p : project) (trees : jsmap nat) k :
  (forall k, own trees k <> None <-> In k (map ts_id (p_trees p))) ->
  ~ In k (map ts_id (p_trees p)) -> own trees k = None.
Proof.
  intros Hkeys Hk; destruct (own trees k) eqn:Ho; [|reflexivity].
  exfalso; apply Hk, Hkeys; rewrite Ho; discriminate.
Qed.

Lemma get_tree_truthy (trees : jsmap nat) k :
  own trees k <> None \/ is_proto_key k = true -> truthy (get_tree trees k) = true.
Proof.
  intros H; unfold get_tree; destruct (own trees k) eqn:Ho; [reflexivity|].
  destruct H as [H|Hp]; [contradiction|rewrite Hp; reflexivity].
Qed.

(** A loading step at a name of [loads_ok] does not throw. *)
Lemma load_node_total E names p trees temp id spec :
  (forall k, own trees k <> None <-> In k (map ts_id (p_trees p))) ->
  loads_ok E names p (ns_name spec) -> total (load_node E names trees temp (id, spec)).
Proof.
  intros Hkeys Hok; unfold load_node.
  destruct (truthy (get_tree trees (ns_name spec))) eqn:Ht; [apply total_ret|].
  destruct Hok as [Hin|[Hpr|(Hn & m & Hb & Hm)]].
  - rewrite get_tree_truthy in Ht by (left; apply Hkeys; exact Hin); discriminate.
  - rewrite get_tree_truthy in Ht by (right; exact Hpr); discriminate.
  - unfold in_names; rewrite (existsb_eqb_false _ _ Hn).
    destruct (is_proto_key (ns_name spec)) eqn:Hp;
      [rewrite get_tree_truthy in Ht by (right; exact Hp); discriminate|].
    rewrite Hb; simpl.
    apply total_bind; [apply construct_total; exact Hm|intros l].
    repeat (apply total_bind; [apply total_update|intros ?]); apply total_ret.
Qed.

Lemma bind_assoc {A B C} (m : M A) (k1 : A -> M B) (k2 : B -> M C) (s : St) :
  bind (bind m k1) k2 s = bind m (fun a => bind (k1 a) k2) s.
Proof. rewrite !bind_inv; destruct (m s); reflexivity. Qed.

Lemma foldM_app {A B} (f : B -> A -> M B) (l1 l2 : list A) :
  forall b s, foldM f b (l1 ++ l2) s = bind (foldM f b l1) (fun b' => foldM f b' l2) s.
Proof.
  induction l1 as [|x r IH]; intros b s; [reflexivity|].
  simpl; rewrite bind_assoc, !bind_inv.
  destruct (f b x s) as [b1 s1|e]; [apply IH|reflexivity].
Qed.

Lemma total_foldM_in {A B} (f : B -> A -> M B) (l : list A) :
  (forall b x, In x l -> total (f b x)) -> forall b, total (foldM f b l).
Proof.
  induction l as [|x r IH]; intros Hf b; simpl; [apply total_ret|].
  apply total_bind; [apply Hf; left; reflexivity|].
  intros b'; apply IH; intros b0 y Hy; apply Hf; right; exact Hy.
Qed.

(** The second pass over one tree does not throw when every node name of
    the tree is of [loads_ok]. *)
Lemma load_tree_total E names p trees u t :
  (forall k, own trees k <> None <-> In k (map ts_id (p_trees p))) ->
  In t (p_trees p) ->
  (forall id spec, In (id, spec) (ts_nodes t) -> loads_ok E names p (ns_name spec)) ->
  total (load_tree E names trees u t).
Proof.
  intros Hkeys Ht Hok s; unfold load_tree.
  destruct (total_foldM_in (load_node E names trees) (ts_nodes t)
              (fun b x Hx => match x as x0 return In x0 (ts_nodes t) -> _ with
                             | (id, spec) => fun Hx0 =>
                                 load_node_total E names p trees b id spec Hkeys (Hok _ _ Hx0)
                             end Hx) [] s) as (temp & s1 & H1).
  rewrite bind_inv, H1.
  destruct (load_nodes_fold _ _ _ _ _ _ _ _ H1) as (_ & Hall & _).
  destruct (total_foldM_in (connect_node temp) (ts_nodes t)
              (fun b x Hx => match x as x0 return In x0 (ts_nodes t) -> _ with
                             | (id, spec) => fun Hx0 =>
                                 connect_node_total temp b id spec
                                   (Hall id (in_map fst _ _ Hx0))
                             end Hx) tt s1) as (u2 & s2 & H2).
  rewrite bind_inv, H2.
  destruct (own trees (ts_id t)) as [l|] eqn:Hl.
  - apply total_update.
  - exfalso; apply (proj2 (Hkeys (ts_id t))); [apply in_map; exact Ht|exact Hl].
Qed.

(** C5 (amended): in a project whose tree ids are not [__proto__], a node
    specification whose name is unresolvable (no tree id, no key of the
    custom-node object or of [Object.prototype], no [b3] member at all)
    makes the call throw: no tree mapping is returned. When no node loaded
    before it throws (the nodes of the earlier trees and the earlier nodes
    of its own tree are all of [loads_ok]), the error thrown is the
    [EvalError] whose message quotes that node's name. *)
Theorem load_project_unresolvable_name_throws (E : env) names (p : project) (s : St)
  (t : tree_spec) id spec :
  plain_tree_ids p = true ->
  In t (p_trees p) -> In (id, spec) (ts_nodes t) ->
  unresolvable E (names_obj names) p (ns_name spec) ->
  (exists e, LoadProject E (IObject (Some p)) names s = Threw e) /\
  (forall pre post npre npost,
     p_trees p = pre ++ t :: post -> ts_nodes t = npre ++ (id, spec) :: npost ->
     (forall t' id' spec', In t' pre -> In (id', spec') (ts_nodes t') ->
        loads_ok E (names_obj names) p (ns_name spec')) ->
     (forall id' spec', In (id', spec') npre ->
        loads_ok E (names_obj names) p (ns_name spec')) ->
     LoadProject E (IObject (Some p)) names s =
       Threw (EvalError (invalid_name_message (ns_name spec)))).
Proof.
  intros _ Ht Hin Hu.
  destruct (create_trees_ok p s) as (trees & s1 & Hc & _ & _ & Hkeys & _).
  rewrite (load_project_unfold _ _ _ _ _ _ Hc).
  destruct Hu as (Hu1 & Hu2 & Hu3 & Hu4).
  assert (Hstep : forall temp s0, load_node E (names_obj names) trees temp (id, spec) s0 =
            Exc (EvalError (invalid_name_message (ns_name spec)))).
  { intros temp s0; apply load_node_unresolvable; auto; apply (own_trees_none p); auto. }
  split.
  - destruct (foldM _ tt (p_trees p) s1) as [u s2|e] eqn:Hf; [exfalso|eauto].
    destruct (foldM_ok_each _ _ _ _ _ _ Hf t Ht) as (b0 & s0 & b1 & s3 & Hl).
    destruct (load_tree_step _ _ _ _ _ _ _ _ Hl) as (temp & s4 & lt & Hfold & _).
    destruct (foldM_ok_each _ _ _ _ _ _ Hfold _ Hin) as (b2 & s5 & b3' & s6 & Hn).
    rewrite Hstep in Hn; discriminate Hn.
  - intros pre post npre npost Hp Hn Hpre Hnpre.
    rewrite Hp, foldM_app, bind_inv.
    assert (Hpre_ok : forall b t', In t' pre ->
              total (load_tree E (names_obj names) trees b t')).
    { intros b t' Ht'; apply (load_tree_total E _ p); [exact Hkeys| |].
      - rewrite Hp; apply in_or_app; left; exact Ht'.
      - intros id' spec'; apply Hpre; exact Ht'. }
    destruct (total_foldM_in _ pre Hpre_ok tt s1) as (u & s2 & H2).
    rewrite H2; simpl; rewrite bind_inv.
    unfold load_tree at 1; rewrite bind_inv, Hn, foldM_app, bind_inv.
    destruct (total_foldM_in (load_node E (names_obj names) trees) npre
                (fun b x Hx => match x as x0 return In x0 npre -> _ with
                               | (id', spec') => fun Hx0 =>
                                   load_node_total E _ p trees b id' spec' Hkeys
                                     (Hnpre _ _ Hx0)
                               end Hx) [] s2) as (temp & s3 & H3).
    rewrite H3; cbv beta iota; cbn [foldM]; rewrite bind_inv, Hstep; reflexivity.
Qed.

(** A tree whose root node has the name [Foo], which nothing resolves. *)
Definition tree_foo : tree_spec := mkTreeSpec "A" "" "" None "r" [("r", leaf "Foo")].

Lemma load_project_unresolvable_name_throws_witness :
  (exists e, LoadProject env_example (IObject (Some (mkProject [tree_foo]))) None s_init
               = Threw e) /\
  (forall pre post npre npost,
     p_trees (mkProject [tree_foo]) = pre ++ tree_foo :: post ->
     ts_nodes tree_foo = npre ++ ("r", leaf "Foo") :: npost ->
     (forall t' id' spec', In t' pre -> In (id', spec') (ts_nodes t') ->
        loads_ok env_example (names_obj None) (mkProject [tree_foo]) (ns_name spec')) ->
     (forall id' spec', In (id', spec') npre ->
        loads_ok env_example (names_obj None) (mkProject [tree_foo]) (ns_name spec')) ->
     LoadProject env_example (IObject (Some (mkProject [tree_foo]))) None s_init =
       Threw (EvalError (invalid_name_message (ns_name (leaf "Foo"))))).
Proof.
  apply (load_project_unresolvable_name_throws env_example None (mkProject [tree_foo])
           s_init tree_foo "r" (leaf "Foo")).
  - reflexivity.
  - left; reflexivity.
  - left; reflexivity.
  - unfold unresolvable; simpl; repeat split.
    + intros [H|H]; [discriminate H|exact H].
    + intros H; exact H.
Defined.

(** A tree whose root node has the name of [b3.createUUID], a member of
    [b3] that is not a node class. *)
Definition tree_uuid : tree_spec :=
  mkTreeSpec "A" "" "" None "r" [("r", leaf "createUUID")].

(** C5 counterexample: a node name that matches no custom entry, no
    built-in node class and no tree id, but names a non-node member of [b3],
    raises no error: the tree mapping is returned. *)
Lemma load_project_non_node_member_counterexample :
  exists trees s',
    LoadProject env_example (IObject (Some (mkProject [tree_uuid]))) None s_init
      = Returned trees s' /\
    own trees "A" = Some 0 /\ o_root (obj_at s' 0) = JLoc 1 /\
    o_kind (obj_at s' 1) = KPlain.
Proof.
  do 2 eexists. split; [vm_compute; reflexivity|].
  vm_compute. repeat split; reflexivity.
Qed.

(** ** Custom nodes, Parallel construction, malformed input *)

(** A tree whose root node has the custom name [MyAction]. *)
Definition tree_custom : tree_spec :=
  mkTreeSpec "A" "" "" None "r" [("r", leaf "MyAction")].

(** C3: with [MyAction] a key of the custom-node object, loading a node of
    that name throws a TypeError, raised by the read of [this._nodes] in
    the [forEach] callback; the custom class is never instantiated. *)
Theorem load_project_custom_node_throws :
  LoadProject env_example (IObject (Some (mkProject [tree_custom]))) (Some ["MyAction"]) s_init
    = Threw (TypeError "Cannot read properties of undefined (reading '_nodes')").
Proof. vm_compute; reflexivity. Qed.

(** A tree whose root node is a [Parallel] with thresholds F = 1, S = 2. *)
Definition tree_parallel : tree_spec :=
  mkTreeSpec "A" "" "" None "r"
    [("r", mkNodeSpec "Parallel" "" "" "" (Some [("F", 1%Z); ("S", 2%Z)]) (Some []) None)].

(** C4: without a global [parameters] binding, [new b3.Parallel(settings)]
    throws a ReferenceError for every settings object, so loading a project
    with a Parallel node throws it too. *)
Theorem parallel_construction_throws :
  (forall (ps : option props) (s : St),
     new_Parallel env_example.(genv) ps s =
       Exc (ReferenceError "ReferenceError: parameters is not defined")) /\
  LoadProject env_example (IObject (Some (mkProject [tree_parallel]))) None s_init
    = Threw (ReferenceError "ReferenceError: parameters is not defined").
Proof.
  split.
  - intros ps s; unfold new_Parallel; simpl.
    reflexivity.
  - vm_compute; reflexivity.
Qed.

(** C7: [null], whose [typeof] is ["object"], passes the guard and makes
    the loader throw; every other non-object input is only reported on the
    console and the call returns [undefined]. *)
Theorem load_project_null_throws (E : env) names (s : St) :
  LoadProject E INull names s
    = Threw (TypeError "Cannot read properties of null (reading 'trees')") /\
  (forall v, match v with
             | IObject _ | INull => True
             | _ => LoadProject E v names s = ReturnedUndefined ["No project data provided."]
             end).
Proof. split; [reflexivity|intros []; reflexivity]. Qed.

End LoaderProofs.

Module ParallelExtra.
Import Parallel ParallelProofs.

Lemma count_le_length (s : status) (l : list status) :
  count s l <= Z.of_nat (List.length l).
Proof.
  induction l as [|r l IH]; [unfold count; simpl; lia|].
  rewrite count_cons; cbn [List.length]; destruct (status_eqb s r); lia.
Qed.

Lemma count_success_failure (l : list status) :
  Forall (fun r => r = SUCCESS \/ r = FAILURE) l ->
  count SUCCESS l + count FAILURE l = Z.of_nat (List.length l).
Proof.
  induction 1 as [|r l Hr _ IH]; [reflexivity|].
  rewrite !count_cons; cbn [List.length].
  destruct Hr as [->| ->]; cbn [status_eqb]; rewrite Nat2Z.inj_succ; lia.
Qed.

(** The result of a tick and the outcomes of its trace, in terms of the
    counts of those outcomes and the number of children. *)
Lemma tick_result_counts {St} (F S : Z) (children : list (child St)) (st : St) :
  let r := fst (fst (tick F S children st)) in
  let outs := map snd (snd (tick F S children st)) in
  List.length outs = List.length children /\
  r = (if count SUCCESS outs >=? S then SUCCESS
       else if count FAILURE outs >=? F then FAILURE else RUNNING).
Proof.
  pose proof (tick_unfold F S children st) as T.
  pose proof (run_children_counts St children counter0 st SUCCESS) as CS.
  pose proof (run_children_counts St children counter0 st FAILURE) as CF.
  pose proof (proj1 (run_children_trace St children counter0 st)) as TR.
  destruct (run_children children counter0 st) as [[c st'] tr]; simpl in *.
  rewrite T; simpl; split.
  - rewrite <- TR, !length_map; reflexivity.
  - unfold counter0 in CS, CF; rewrite CS, CF; reflexivity.
Qed.

(** A threshold larger than the number of children is never reached: with
    [S] above it the tick never returns SUCCESS, and with [F] above it too
    the tick always returns RUNNING, whatever the children return. *)
Theorem parallel_tick_unreachable_thresholds {St} (F S : Z)
  (children : list (child St)) (st : St) :
  Z.of_nat (List.length children) < S ->
  fst (fst (tick F S children st)) <> SUCCESS /\
  (Z.of_nat (List.length children) < F -> fst (fst (tick F S children st)) = RUNNING).
Proof.
  intros HS.
  destruct (tick_result_counts F S children st) as [Hlen Hr]; simpl in Hlen, Hr.
  pose proof (count_le_length SUCCESS (map snd (snd (tick F S children st)))) as CS.
  pose proof (count_le_length FAILURE (map snd (snd (tick F S children st)))) as CF.
  rewrite Hlen in CS, CF; rewrite Hr.
  destruct (Z.geb_spec (count SUCCESS (map snd (snd (tick F S children st)))) S); [lia|].
  split; [destruct (_ >=? F); discriminate|intros HF].
  destruct (Z.geb_spec (count FAILURE (map snd (snd (tick F S children st)))) F); [lia|].
  reflexivity.
Qed.

(** When every child returns SUCCESS or FAILURE and there are at least
    [F + S - 1] children, one of the two thresholds is met: the tick does
    not return RUNNING. *)
Theorem parallel_tick_no_running_when_thresholds_fit {St} (F S : Z)
  (children : list (child St)) (st : St) :
  Forall (fun r => r = SUCCESS \/ r = FAILURE) (map snd (snd (tick F S children st))) ->
  F + S <= Z.of_nat (List.length children) + 1 ->
  fst (fst (tick F S children st)) <> RUNNING.
Proof.
  intros Hall Hfit.
  destruct (tick_result_counts F S children st) as [Hlen Hr]; simpl in Hlen, Hr.
  pose proof (count_success_failure _ Hall) as Hsum; rewrite Hlen in Hsum.
  rewrite Hr.
  destruct (Z.geb_spec (count SUCCESS (map snd (snd (tick F S children st)))) S);
    [discriminate|].
  destruct (Z.geb_spec (count FAILURE (map snd (snd (tick F S children st)))) F);
    [discriminate|lia].
Qed.

(** With a global [parameters] binding in place, settings whose [S] is
    absent or 0 give [this.F = settings.F || 0] and [this.S = 0], and such a
    Parallel returns SUCCESS on every tick, whatever its children return. *)
Theorem parallel_default_success_threshold (s : settings) :
  set_S s = None \/ set_S s = Some 0 ->
  initialize {| has_global_parameters := true |} s = InitOk (or_zero (set_F s)) 0 /\
    forall (St : Type) (children : list (child St)) (st : St),
      fst (fst (tick (or_zero (set_F s)) 0 children st)) = SUCCESS.
Proof.
  intros HS; split.
  - unfold initialize; simpl; destruct HS as [-> | ->]; reflexivity.
  - intros St children st.
    destruct (tick_result_counts (or_zero (set_F s)) 0 children st) as [_ Hr]; simpl in Hr.
    rewrite Hr.
    set (outs := map snd (snd (tick (or_zero (set_F s)) 0 children st))).
    assert (0 <= count SUCCESS outs) by (unfold count; lia).
    destruct (Z.geb_spec (count SUCCESS outs) 0); [reflexivity|lia].
Qed.

(** Children without state that always return the same outcome. *)
Definition const_child (n : nat) (r : status) : child unit := mkChild n (fun st => (r, st)).

Lemma parallel_tick_unreachable_thresholds_witness :
  fst (fst (tick 2 2 [const_child 0 FAILURE] tt)) <> SUCCESS /\
  (Z.of_nat (List.length [const_child 0 FAILURE]) < 2 ->
   fst (fst (tick 2 2 [const_child 0 FAILURE] tt)) = RUNNING).
Proof.
  apply parallel_tick_unreachable_thresholds; simpl; lia.
Defined.

Lemma parallel_tick_no_running_when_thresholds_fit_witness :
  fst (fst (tick 1 2 [const_child 0 SUCCESS; const_child 1 FAILURE] tt)) <> RUNNING.
Proof.
  apply parallel_tick_no_running_when_thresholds_fit.
  - vm_compute.
    repeat (apply Forall_cons; [first [left; reflexivity|right; reflexivity]|]).
    apply Forall_nil.
  - simpl; lia.
Defined.

Lemma parallel_default_success_threshold_witness :
  initialize {| has_global_parameters := true |}
    {| set_F := Some 3; set_S := None |} = InitOk (or_zero (Some 3)) 0 /\
    forall (St : Type) (children : list (child St)) (st : St),
      fst (fst (tick (or_zero (Some 3)) 0 children st)) = SUCCESS.
Proof.
  apply parallel_default_success_threshold; left; reflexivity.
Defined.

End ParallelExtra.

Module LoaderExtra.
Import Loader LoaderProofs.
Local Open Scope nat_scope.
Local Open Scope list_scope.

(** ** Wiring one node *)

Lemma push_children_fold (temp : jsmap jval) (l : nat) (cids : list string) :
  forall s, l < List.length (heap s) ->
  exists s',
    foldM (fun _ cid => update l (fun o => push_child o (get_temp temp cid))) tt cids s
      = Ok tt s' /\
    List.length (heap s') = List.length (heap s) /\
    o_children (obj_at s' l) = o_children (obj_at s l) ++ map (get_temp temp) cids /\
    (forall l', l' <> l -> obj_at s' l' = obj_at s l').
Proof.
  induction cids as [|cid r IH]; intros s Hl.
  - exists s; simpl; rewrite app_nil_r; auto.
  - set (s1 := mkSt (replace (heap s) l (push_child (obj_at s l) (get_temp temp cid))) (uuids s)).
    assert (L1 : List.length (heap s1) = List.length (heap s)) by apply length_replace.
    destruct (IH s1 ltac:(lia)) as (s' & Hf & Hlen & Hch & Hoth).
    exists s'; split; [|split; [lia|split]].
    + cbn [foldM]; rewrite bind_inv, update_state; exact Hf.
    + rewrite Hch; unfold s1; rewrite obj_at_replace, Nat.eqb_refl.
      apply Nat.ltb_lt in Hl; rewrite Hl; simpl; rewrite <- app_assoc; reflexivity.
    + intros l' Hne; rewrite (Hoth l' Hne); unfold s1; rewrite obj_at_replace.
      apply Nat.eqb_neq in Hne; rewrite Hne; reflexivity.
Qed.

(** The wiring step of a node whose object sits at [l], when no node id
    [__proto__] was written to [tempNodes]: a composite with a [children]
    list gets, appended in list order, [tempNodes[cid]] for each child id
    (for an id with no node, [undefined], or the member of
    [Object.prototype] of that name); a decorator with a non-empty [child]
    id gets [tempNodes[child]], and an empty [child] leaves it unchanged.
    No other object is modified and nothing is thrown. *)
Theorem connect_node_wiring (temp : jsmap jval) (u : unit) id (spec : node_spec)
  (l : nat) (s : St) :
  own temp "__proto__" = None ->
  get_temp temp id = JLoc l -> l < List.length (heap s) ->
  (forall cids, o_category (obj_at s l) = Some COMPOSITE -> ns_children spec = Some cids ->
     exists s', connect_node temp u (id, spec) s = Ok tt s' /\
       o_children (obj_at s' l) = o_children (obj_at s l) ++ map (get_temp temp) cids /\
       (forall l', l' <> l -> obj_at s' l' = obj_at s l')) /\
  (forall c, o_category (obj_at s l) = Some DECORATOR -> ns_child spec = Some c ->
     exists s', connect_node temp u (id, spec) s = Ok tt s' /\
       o_child (obj_at s' l) =
         (if String.eqb c "" then o_child (obj_at s l) else get_temp temp c) /\
       (forall l', l' <> l -> obj_at s' l' = obj_at s l')).
Proof.
  intros _ Hget Hl; split.
  - intros cids Hcat Hch.
    destruct (push_children_fold temp l cids s Hl) as (s' & Hf & _ & Hc & Ho).
    exists s'; split; [|auto].
    unfold connect_node; rewrite Hget, bind_inv; unfold read; rewrite Hcat, Hch; exact Hf.
  - intros c Hcat Hc.
    unfold connect_node; rewrite Hget, bind_inv; unfold read; rewrite Hcat, Hc.
    destruct (String.eqb c "").
    + exists s; auto.
    + eexists; split; [apply update_state|]; split.
      * rewrite obj_at_replace, Nat.eqb_refl.
        apply Nat.ltb_lt in Hl; rewrite Hl; reflexivity.
      * intros l' Hne; rewrite obj_at_replace.
        apply Nat.eqb_neq in Hne; rewrite Hne; reflexivity.
Qed.

(** A composite node object with no children yet. *)
Definition composite_obj : obj :=
  mkObj (KNode "Sequence") (Some COMPOSITE) FUndef FUndef FUndef (Some []) [] JUndef JUndef 0 0.

Definition wiring_spec : node_spec :=
  mkNodeSpec "Sequence" "" "" "" None (Some ["b"; "zz"]) None.

Lemma connect_node_wiring_witness :
  (forall cids, o_category (obj_at (mkSt [composite_obj] 0) 0) = Some COMPOSITE ->
     ns_children wiring_spec = Some cids ->
     exists s', connect_node [("a", JLoc 0); ("b", JLoc 1)] tt ("a", wiring_spec)
                  (mkSt [composite_obj] 0) = Ok tt s' /\
       o_children (obj_at s' 0) =
         o_children (obj_at (mkSt [composite_obj] 0) 0) ++
           map (get_temp [("a", JLoc 0); ("b", JLoc 1)]) cids /\
       (forall l', l' <> 0 -> obj_at s' l' = obj_at (mkSt [composite_obj] 0) l')) /\
  (forall c, o_category (obj_at (mkSt [composite_obj] 0) 0) = Some DECORATOR ->
     ns_child wiring_spec = Some c ->
     exists s', connect_node [("a", JLoc 0); ("b", JLoc 1)] tt ("a", wiring_spec)
                  (mkSt [composite_obj] 0) = Ok tt s' /\
       o_child (obj_at s' 0) =
         (if String.eqb c "" then o_child (obj_at (mkSt [composite_obj] 0) 0)
          else get_temp [("a", JLoc 0); ("b", JLoc 1)] c) /\
       (forall l', l' <> 0 -> obj_at s' l' = obj_at (mkSt [composite_obj] 0) l')).
Proof.
  apply connect_node_wiring; [reflexivity|reflexivity|simpl; lia].
Defined.

(** ** The custom-node argument *)

Lemma bind_sim {A B} (m1 m2 : M A) (k : A -> M B) (s : St) e0 :
  m1 s = m2 s \/ m1 s = Exc e0 ->
  bind m1 k s = bind m2 k s \/ bind m1 k s = Exc e0.
Proof. unfold bind; intros [-> | ->]; auto. Qed.

(** Two folds whose steps agree, except that a step of the first may throw
    [e0], agree except that the first may throw [e0]. *)
Lemma foldM_sim {A B} (f g : B -> A -> M B) (e0 : exn) (l : list A) :
  (forall b x s, In x l -> f b x s = g b x s \/ f b x s = Exc e0) ->
  forall b s, foldM f b l s = foldM g b l s \/ foldM f b l s = Exc e0.
Proof.
  induction l as [|x r IH]; intros H b s; [left; reflexivity|].
  cbn [foldM]; rewrite !bind_inv.
  destruct (H b x s (or_introl eq_refl)) as [Heq|Hexc].
  - rewrite Heq; destruct (g b x s) as [b' s'|e]; [|left; reflexivity].
    apply IH; intros; apply H; right; assumption.
  - rewrite Hexc; right; reflexivity.
Qed.

Definition nodes_error : exn :=
  TypeError "Cannot read properties of undefined (reading '_nodes')".

Lemma load_node_names_sim E names trees temp x s :
  load_node E names trees temp x s = load_node E [] trees temp x s \/
  load_node E names trees temp x s = Exc nodes_error.
Proof.
  destruct x as [id spec]; unfold load_node.
  destruct (truthy (get_tree trees (ns_name spec))); [left; reflexivity|].
  unfold in_names at 2; simpl existsb; simpl orb.
  destruct (is_proto_key (ns_name spec)) eqn:Hp.
  - unfold in_names; rewrite Hp, orb_true_r; left; reflexivity.
  - destruct (in_names names (ns_name spec)); [right; reflexivity|left; reflexivity].
Qed.

Lemma load_tree_names_sim E names trees u t s :
  load_tree E names trees u t s = load_tree E [] trees u t s \/
  load_tree E names trees u t s = Exc nodes_error.
Proof.
  unfold load_tree; apply bind_sim, foldM_sim.
  intros; apply load_node_names_sim.
Qed.

(** Passing a custom-node object never changes what a load returns: the
    call ends exactly as it does without the object, or it throws the
    TypeError raised by reading [this._nodes]. *)
Theorem load_project_custom_names_never_change_result (E : env) (v : input)
  (names : list string) (s : St) :
  LoadProject E v (Some names) s = LoadProject E v None s \/
  LoadProject E v (Some names) s = Threw nodes_error.
Proof.
  destruct v as [| | | | | |[p|]]; try (left; reflexivity).
  destruct (create_trees_ok p s) as (trees & s1 & Hc & _).
  rewrite !(load_project_unfold _ _ _ _ _ _ Hc).
  destruct (foldM_sim (load_tree E (names_obj (Some names)) trees)
              (load_tree E (names_obj None) trees) nodes_error (p_trees p)
              (fun b x s0 _ => load_tree_names_sim E names trees b x s0) tt s1)
    as [Heq|Hexc].
  - rewrite Heq; left; reflexivity.
  - rewrite Hexc; right; reflexivity.
Qed.

(** ** The tree mapping *)

Lemma create_trees_frame (ts : list tree_spec) :
  forall trees0 s trees s1, foldM create_tree trees0 ts s = Ok trees s1 ->
  forall l, l < List.length (heap s) -> obj_at s1 l = obj_at s l.
Proof.
  induction ts as [|t0 r IH]; intros trees0 s trees s1 H l Hl.
  - injection H as _ <-; reflexivity.
  - cbn [foldM] in H; rewrite bind_inv, create_tree_spec in H.
    rewrite (IH _ _ _ _ H l ltac:(simpl; rewrite length_app; simpl; lia)).
    unfold obj_at; simpl; apply nth_app_old; exact Hl.
Qed.

(** The first pass allocates the trees in list order: the [i]-th tree's
    object sits at [i] past the old end of the heap, and a key is bound to
    the object of the last tree with that id. *)
Lemma create_trees_positions (ts : list tree_spec) :
  forall trees0 s trees s1,
  foldM create_tree trees0 ts s = Ok trees s1 ->
  List.length (heap s1) = List.length (heap s) + List.length ts /\
  (forall i t, nth_error ts i = Some t ->
     obj_at s1 (List.length (heap s) + i) = tree_obj_of t (uuids s + i)) /\
  (forall k, ~ In k (map ts_id ts) -> own trees k = own trees0 k) /\
  (forall i t, nth_error ts i = Some t ->
     (forall j t', i < j -> nth_error ts j = Some t' -> ts_id t' <> ts_id t) ->
     own trees (ts_id t) = Some (List.length (heap s) + i)) /\
  (forall k l, own trees k = Some l ->
     own trees0 k = Some l \/
     exists i t, nth_error ts i = Some t /\ ts_id t = k /\ l = List.length (heap s) + i).
Proof.
  induction ts as [|t0 r IH]; intros trees0 s trees s1 H.
  - injection H as <- <-. simpl; rewrite Nat.add_0_r.
    repeat split; auto; intros [|i] t Ht; discriminate Ht.
  - cbn [foldM] in H; rewrite bind_inv, create_tree_spec in H.
    pose proof (create_trees_frame _ _ _ _ _ H) as Hfr.
    destruct (IH _ _ _ _ H) as (Hlen & Hobj & Hkeep & Hown & Hback).
    cbn [heap uuids] in Hlen, Hobj, Hown, Hback, Hfr.
    rewrite length_app in Hlen, Hobj, Hown, Hback, Hfr; cbn [List.length] in *.
    split; [lia|split; [|split; [|split]]].
    + intros [|i] t Ht.
      * injection Ht as <-.
        rewrite !Nat.add_0_r, Hfr by lia.
        unfold obj_at; simpl; apply nth_app_last.
      * simpl in Ht; replace (uuids s + S i) with (S (uuids s) + i) by lia.
        rewrite <- (Hobj i t Ht); f_equal; lia.
    + intros k Hk; simpl in Hk; rewrite (Hkeep k (fun Hin => Hk (or_intror Hin))).
      rewrite own_put; destruct (String.eqb k (ts_id t0)) eqn:Ek;
        [apply String.eqb_eq in Ek; exfalso; auto|reflexivity].
    + intros [|i] t Ht Hlast.
      * injection Ht as <-.
        rewrite Hkeep.
        -- rewrite own_put, String.eqb_refl, Nat.add_0_r; reflexivity.
        -- intros Hin; apply in_map_iff in Hin as (t' & Heq & Hin).
           apply In_nth_error in Hin as (j & Hj).
           exact (Hlast (S j) t' ltac:(lia) Hj Heq).
      * simpl in Ht; rewrite (Hown i t Ht); [f_equal; lia|].
        intros j t' Hij Hj; exact (Hlast (S j) t' ltac:(lia) Hj).
    + intros k l Hk; destruct (Hback k l Hk) as [H0|(i & t & Ht & Hid & Hl)].
      * rewrite own_put in H0; destruct (String.eqb k (ts_id t0)) eqn:Ek.
        -- right; exists 0, t0; apply String.eqb_eq in Ek; injection H0 as <-.
           split; [reflexivity|split; [symmetry; exact Ek|lia]].
        -- left; exact H0.
      * right; exists (S i), t; split; [exact Ht|split; [exact Hid|lia]].
Qed.

Ltac load_ok H :=
  let trees0 := fresh "trees0" in let s1 := fresh "s1" in let Hc := fresh "Hc" in
  let Hinv := fresh "Hinv" in let Hinj := fresh "Hinj" in let Hkeys := fresh "Hkeys" in
  let Hf := fresh "Hf" in
  lazymatch type of H with
  | LoadProject ?E (IObject (Some ?p)) ?names ?s = Returned _ _ =>
      destruct (create_trees_ok p s) as (trees0 & s1 & Hc & _ & [Hinv Hinj] & Hkeys & _);
      rewrite (load_project_unfold _ _ _ _ _ _ Hc) in H;
      destruct (foldM _ tt (p_trees p) s1) as [? ?|?] eqn:Hf; [|discriminate H];
      injection H as <- <-
  end.

(** After a successful load of a project whose tree ids are not
    [__proto__], the mapping has a key for every tree id of the project and
    for nothing else, and each key is bound to a BehaviorTree object created
    by this call. *)
Theorem load_project_mapping_keys (E : env) names (p : project) (s : St) trees s' :
  plain_tree_ids p = true ->
  LoadProject E (IObject (Some p)) names s = Returned trees s' ->
  (forall k, own trees k <> None <-> In k (map ts_id (p_trees p))) /\
  (forall k l, own trees k = Some l ->
     List.length (heap s) <= l /\ o_kind (obj_at s' l) = KTree).
Proof.
  intros _ H; load_ok H.
  split; [exact Hkeys|intros k l Hk].
  destruct (create_trees_positions _ _ _ _ _ Hc) as (_ & _ & _ & _ & Hback).
  destruct (load_trees_fold _ _ _ _ _ _ _ Hf) as (_ & K & _).
  destruct (Hinv _ _ Hk) as [Hl Hkind].
  split; [|rewrite K by exact Hl; exact Hkind].
  destruct (Hback k l Hk) as [[=]|(i & t & _ & _ & ->)]; lia.
Qed.

(** When several trees share an id, the mapping binds that id to the object
    the first pass created for the last of them; the objects created for
    the earlier ones are bound to no key. *)
Theorem load_project_duplicate_tree_ids (E : env) names (p : project) (s : St) trees s'
  (i : nat) (t : tree_spec) :
  LoadProject E (IObject (Some p)) names s = Returned trees s' ->
  nth_error (p_trees p) i = Some t ->
  (forall j t', i < j -> nth_error (p_trees p) j = Some t' -> ts_id t' <> ts_id t) ->
  own trees (ts_id t) = Some (List.length (heap s) + i) /\
  (exists s1, create_trees p s = Ok trees s1 /\
     obj_at s1 (List.length (heap s) + i) = tree_obj_of t (uuids s + i)) /\
  (forall j t', j < i -> nth_error (p_trees p) j = Some t' -> ts_id t' = ts_id t ->
     forall k, own trees k <> Some (List.length (heap s) + j)).
Proof.
  intros H Ht Hlast; load_ok H.
  destruct (create_trees_positions _ _ _ _ _ Hc) as (_ & Hobj & _ & Hown & Hback).
  pose proof (Hown i t Ht Hlast) as Hi.
  split; [exact Hi|split; [exists s1; split; [exact Hc|exact (Hobj i t Ht)]|]].
  intros j t' Hj Ht' Hid k Hk.
  destruct (Hback k _ Hk) as [[=]|(i' & t'' & Ht'' & Hk' & Hl)].
  assert (i' = j) as -> by lia.
  rewrite Ht' in Ht''; injection Ht'' as <-; subst k.
  rewrite Hid, Hi in Hk; injection Hk; lia.
Qed.

(** When the call returns a mapping, a tree whose [root] id names no node
    of that tree (and whose id and node ids are not [__proto__]) has the
    root [undefined], or the member of [Object.prototype] of that name. The
    missing root is not reported as an error. *)
Theorem load_project_root_not_a_node (E : env) names (p : project) (s : St) trees s'
  (t : tree_spec) :
  LoadProject E (IObject (Some p)) names s = Returned trees s' ->
  NoDup (map ts_id (p_trees p)) -> In t (p_trees p) ->
  ts_id t <> "__proto__" -> plain_node_ids t = true ->
  ~ In (ts_root t) (map fst (ts_nodes t)) ->
  exists l, own trees (ts_id t) = Some l /\
    o_root (obj_at s' l) =
      (if is_proto_key (ts_root t) then JInherited (ts_root t) else JUndef).
Proof.
  intros H Hnd Ht _ _ Hroot; load_ok H.
  destruct (own trees0 (ts_id t)) as [l|] eqn:Hl;
    [|exfalso; apply (proj2 (Hkeys (ts_id t))); [apply in_map; exact Ht|exact Hl]].
  exists l; split; [reflexivity|].
  destruct (load_trees_fold _ _ _ _ _ _ _ Hf) as (_ & _ & _ & T).
  destruct (T Hinj Hnd t l Ht Hl (proj1 (Hinv _ _ Hl))) as (sB & temp & sB1 & Hfold & ->).
  destruct (load_nodes_fold _ _ _ _ _ _ _ _ Hfold) as (Hkeep & _).
  unfold get_temp; rewrite (Hkeep _ Hroot); reflexivity.
Qed.

(** In a project whose tree ids are not [__proto__], a node whose name is
    a key of [Object.prototype] (such as [toString]) and no tree id is
    bound, without any instance being created, to [trees[name]], the member
    the mapping inherits from [Object.prototype] under that key (a built-in
    function, or [Object.prototype] itself for [__proto__]); as the tree's
    root it becomes the tree's [root]. *)
Theorem load_project_proto_key_names (E : env) names (p : project) (s : St) trees s'
  (tB : tree_spec) id (spec : node_spec) :
  plain_tree_ids p = true ->
  LoadProject E (IObject (Some p)) names s = Returned trees s' ->
  NoDup (map ts_id (p_trees p)) -> In tB (p_trees p) ->
  NoDup (map fst (ts_nodes tB)) -> In (id, spec) (ts_nodes tB) ->
  is_proto_key (ns_name spec) = true -> ~ In (ns_name spec) (map ts_id (p_trees p)) ->
  (forall s1 temp s2,
     foldM (load_node E (names_obj names) trees) [] (ts_nodes tB) s1 = Ok temp s2 ->
     own temp id = Some (JInherited (ns_name spec))) /\
  (id = ts_root tB ->
   exists lB, own trees (ts_id tB) = Some lB /\
     o_root (obj_at s' lB) = JInherited (ns_name spec)).
Proof.
  intros _ H Hnd HB HndB Hin Hp Hnt; load_ok H.
  assert (Hg : get_tree trees0 (ns_name spec) = JInherited (ns_name spec)).
  { unfold get_tree; rewrite (own_trees_none p trees0 _ Hkeys Hnt), Hp; reflexivity. }
  assert (Hslot : forall s1 temp s2,
     foldM (load_node E (names_obj names) trees0) [] (ts_nodes tB) s1 = Ok temp s2 ->
     own temp id = Some (JInherited (ns_name spec))).
  { intros s3 temp s4 Hfold.
    destruct (load_nodes_fold _ _ _ _ _ _ _ _ Hfold) as (_ & _ & Hb).
    rewrite <- Hg; apply (Hb HndB id spec Hin); rewrite Hg; reflexivity. }
  split; [exact Hslot|intros ->].
  destruct (own trees0 (ts_id tB)) as [lB|] eqn:HlB;
    [|exfalso; apply (proj2 (Hkeys (ts_id tB))); [apply in_map; exact HB|exact HlB]].
  exists lB; split; [reflexivity|].
  destruct (load_trees_fold _ _ _ _ _ _ _ Hf) as (_ & _ & _ & T).
  destruct (T Hinj Hnd tB lB HB HlB (proj1 (Hinv _ _ HlB))) as (sB & temp & sB1 & Hfold & ->).
  unfold get_temp; rewrite (Hslot _ _ _ Hfold); reflexivity.
Qed.

(** The mapping and the final state of a call that returned. *)
Definition result_trees (r : outcome) : jsmap nat :=
  match r with Returned t _ => t | _ => [] end.
Definition result_state (r : outcome) : St :=
  match r with Returned _ s => s | _ => s_init end.

(** Two trees with the id [A] and no nodes. *)
Definition tree_A1 : tree_spec := mkTreeSpec "A" "first" "" None "r" [].
Definition tree_A2 : tree_spec := mkTreeSpec "A" "second" "" None "r" [].
Definition proj_dup : project := mkProject [tree_A1; tree_A2].
Definition dup_run : outcome := LoadProject env_example (IObject (Some proj_dup)) None s_init.

Definition tree_missing_root : tree_spec :=
  mkTreeSpec "A" "" "" None "x" [("r", leaf "createUUID")].
Definition missing_run : outcome :=
  LoadProject env_example (IObject (Some (mkProject [tree_missing_root]))) None s_init.

Definition tree_proto : tree_spec := mkTreeSpec "A" "" "" None "r" [("r", leaf "toString")].
Definition proto_run : outcome :=
  LoadProject env_example (IObject (Some (mkProject [tree_proto]))) None s_init.

Lemma load_project_mapping_keys_witness :
  (forall k, own mutual_trees k <> None <-> In k (map ts_id (p_trees proj_mutual))) /\
  (forall k l, own mutual_trees k = Some l ->
     List.length (heap s_init) <= l /\ o_kind (obj_at mutual_state l) = KTree).
Proof.
  apply (load_project_mapping_keys env_example None); vm_compute; reflexivity.
Defined.

Lemma load_project_duplicate_tree_ids_witness :
  own (result_trees dup_run) "A" = Some (List.length (heap s_init) + 1) /\
  (exists s1, create_trees proj_dup s_init = Ok (result_trees dup_run) s1 /\
     obj_at s1 (List.length (heap s_init) + 1) = tree_obj_of tree_A2 (uuids s_init + 1)) /\
  (forall j t', j < 1 -> nth_error (p_trees proj_dup) j = Some t' -> ts_id t' = "A" ->
     forall k, own (result_trees dup_run) k <> Some (List.length (heap s_init) + j)).
Proof.
  apply (load_project_duplicate_tree_ids env_example None proj_dup s_init
           (result_trees dup_run) (result_state dup_run) 1 tree_A2).
  - vm_compute; reflexivity.
  - reflexivity.
  - intros j t' Hj Ht'; do 2 (destruct j as [|j]; [lia|]); destruct j; discriminate Ht'.
Defined.

Lemma load_project_root_not_a_node_witness :
  exists l, own (result_trees missing_run) "A" = Some l /\
    o_root (obj_at (result_state missing_run) l) =
      (if is_proto_key "x" then JInherited "x" else JUndef).
Proof.
  apply (load_project_root_not_a_node env_example None (mkProject [tree_missing_root]) s_init
           _ _ tree_missing_root).
  - vm_compute; reflexivity.
  - repeat constructor; simpl; tauto.
  - left; reflexivity.
  - discriminate.
  - reflexivity.
  - simpl; intros [H|H]; [discriminate H|exact H].
Defined.

Lemma load_project_proto_key_names_witness :
  (forall s1 temp s2,
     foldM (load_node env_example (names_obj None) (result_trees proto_run)) []
       (ts_nodes tree_proto) s1 = Ok temp s2 ->
     own temp "r" = Some (JInherited "toString")) /\
  ("r" = ts_root tree_proto ->
   exists lB, own (result_trees proto_run) "A" = Some lB /\
     o_root (obj_at (result_state proto_run) lB) = JInherited "toString").
Proof.
  apply (load_project_proto_key_names env_example None (mkProject [tree_proto]) s_init
           _ _ tree_proto "r" (leaf "toString")).
  - reflexivity.
  - vm_compute; reflexivity.
  - repeat constructor; simpl; tauto.
  - left; reflexivity.
  - repeat constructor; simpl; tauto.
  - left; reflexivity.
  - reflexivity.
  - simpl; intros [H|H]; [discriminate H|exact H].
Defined.

End LoaderExtra.

Module UUIDProofs.
Import UUID.
Local Open Scope nat_scope.

(** The hexadecimal digit of value [k]. *)
Definition hexc (k : nat) : ascii :=
  match String.get k hexDigits with Some c => c | None => "0"%char end.

Lemma substr1_hex (k : nat) :
  k < 16 -> substr1 hexDigits k = String (hexc k) EmptyString /\
            String.get k hexDigits = Some (hexc k).
Proof. intros Hk; do 16 (destruct k as [|k]; [split; reflexivity|]); lia. Qed.

Lemma variant_digit (k : nat) :
  k < 16 ->
  substr1 hexDigits
    (Z.to_nat (Z.lor (Z.land (int32_of_short_string (String (hexc k) EmptyString)) 3) 8))
  = String (hexc (Nat.lor (Nat.land (if k <? 10 then k else 0) 3) 8)) EmptyString.
Proof. intros Hk; do 16 (destruct k as [|k]; [reflexivity|]); lia. Qed.

Lemma variant_bound (k : nat) :
  k < 16 -> Nat.lor (Nat.land (if k <? 10 then k else 0) 3) 8 < 16.
Proof. intros Hk; do 16 (destruct k as [|k]; [vm_compute; lia|]); lia. Qed.

Lemma createUUID_chars (rand : nat -> nat) :
  (forall i, rand i < 16) ->
  String.length (createUUID rand) = 36 /\
  forall i, i < 36 ->
    String.get i (createUUID rand) =
      if (i =? 8) || (i =? 13) || (i =? 18) || (i =? 23) then Some "-"%char
      else if i =? 14 then Some "4"%char
      else if i =? 19 then
        String.get (Nat.lor (Nat.land (if rand 19 <? 10 then rand 19 else 0) 3) 8) hexDigits
      else String.get (rand i) hexDigits.
Proof.
  intros Hr; unfold createUUID.
  rewrite (map_ext_in _ (fun i => String (hexc (rand i)) EmptyString) (seq 0 36))
    by (intros i _; exact (proj1 (substr1_hex _ (Hr i)))).
  cbn [seq map Loader.replace nth].
  rewrite (variant_digit _ (Hr 19)).
  rewrite (proj2 (substr1_hex _ (variant_bound _ (Hr 19)))).
  split; [reflexivity|].
  intros i Hi.
  do 36 (destruct i as [|i];
         [try rewrite (proj2 (substr1_hex _ (Hr _))); cbn -[hexc]; reflexivity|]).
  lia.
Qed.

(** With every random draw in 0..15, as [Math.floor(Math.random() * 0x10)]
    gives, the UUID has 36 characters: dashes at 8, 13, 18 and 23, the
    version digit 4 at 14, at 19 the digit [(d & 3) | 8] of the draw [d]
    made there (with [d] read as 0 when it is a letter a-f), and elsewhere
    the digit drawn for that position. *)
Theorem createUUID_layout (rand : nat -> nat) :
  (forall i, rand i < 16) ->
  String.length (createUUID rand) = 36 /\
  forall i, i < 36 ->
    String.get i (createUUID rand) =
      if (i =? 8) || (i =? 13) || (i =? 18) || (i =? 23) then Some "-"%char
      else if i =? 14 then Some "4"%char
      else if i =? 19 then
        String.get (Nat.lor (Nat.land (if rand 19 <? 10 then rand 19 else 0) 3) 8) hexDigits
      else String.get (rand i) hexDigits.
Proof. exact (createUUID_chars rand). Qed.

(** The 20th character, the RFC 4122 variant digit, is always 8, 9, a or
    b; and it is 8 whenever the digit drawn there is a letter a-f, because
    [s[19] & 0x3] reads such a letter as NaN, that is 0. *)
Theorem createUUID_variant (rand : nat -> nat) :
  (forall i, rand i < 16) ->
  In (String.get 19 (createUUID rand))
     [Some "8"%char; Some "9"%char; Some "a"%char; Some "b"%char] /\
  (10 <= rand 19 -> String.get 19 (createUUID rand) = Some "8"%char).
Proof.
  intros Hr; rewrite (proj2 (createUUID_chars rand Hr) 19 ltac:(lia)); cbn -[String.get].
  pose proof (Hr 19) as H19; destruct (rand 19) as [|k]; [split; [left; reflexivity|lia]|].
  do 15 (destruct k as [|k];
         [split; [vm_compute; repeat (first [left; reflexivity|right])|
                  intros; try lia; reflexivity]|]).
  lia.
Qed.

(** Draws cycling through the sixteen digits. *)
Definition rand_example (i : nat) : nat := Nat.modulo i 16.

Lemma rand_example_bound i : rand_example i < 16.
Proof. unfold rand_example; apply Nat.mod_upper_bound; lia. Qed.

Lemma createUUID_layout_witness :
  String.length (createUUID rand_example) = 36 /\
  forall i, i < 36 ->
    String.get i (createUUID rand_example) =
      if (i =? 8) || (i =? 13) || (i =? 18) || (i =? 23) then Some "-"%char
      else if i =? 14 then Some "4"%char
      else if i =? 19 then
        String.get (Nat.lor (Nat.land (if rand_example 19 <? 10 then rand_example 19 else 0) 3) 8)
          hexDigits
      else String.get (rand_example i) hexDigits.
Proof. apply createUUID_layout; exact rand_example_bound. Defined.

Lemma createUUID_variant_witness :
  In (String.get 19 (createUUID rand_example))
     [Some "8"%char; Some "9"%char; Some "a"%char; Some "b"%char] /\
  (10 <= rand_example 19 -> String.get 19 (createUUID rand_example) = Some "8"%char).
Proof. apply createUUID_variant; exact rand_example_bound. Defined.

End UUIDProofs.

Module ClassProofs.
Import JSClass.
Local Open Scope list_scope.

Lemma fold_set_own (ps : list (string * value)) :
  forall o par,
  fold_left (fun p kv => set_own p (fst kv) (snd kv)) ps (PObj o par) = PObj (rev ps ++ o) par.
Proof.
  induction ps as [|[k v] ps IH]; intros o par; [reflexivity|].
  simpl; rewrite IH, <- app_assoc; reflexivity.
Qed.

Lemma own_app {V} (l1 l2 : Loader.jsmap V) k :
  Loader.own (l1 ++ l2) k =
    match Loader.own l1 k with Some v => Some v | None => Loader.own l2 k end.
Proof.
  induction l1 as [|[k' v'] l1 IH]; [reflexivity|].
  simpl; destruct (String.eqb k k'); [reflexivity|exact IH].
Qed.

(** Lookup on the prototype of a class made by [b3.Class(baseClass,
    properties)]: a key of [properties] gives its (last) value; otherwise
    [constructor] is the new class itself; [initialize] is a new no-op
    function when the base chain has no truthy [initialize]; every other
    key is looked up on the base class's prototype, or on
    [Object.prototype] without a base class. *)
Theorem Class_prototype_lookup (baseClass : option cls)
  (properties : option (list (string * value))) (next : nat) (k : string) :
  let parent := match baseClass with Some b => cls_prototype b | None => ObjectPrototype end in
  lookup (cls_prototype (fst (Class baseClass properties next))) k =
    match Loader.own (rev (match properties with Some ps => ps | None => [] end)) k with
    | Some v => v
    | None =>
        if String.eqb k "constructor" then VFun next
        else if String.eqb k "initialize" && negb (truthy_value (lookup parent "initialize"))
        then VFun (S next)
        else lookup parent k
    end.
Proof.
  intros parent; unfold Class.
  set (p1 := match baseClass with
             | Some b => set_own (PObj [] (cls_prototype b)) "constructor" (VFun next)
             | None => PObj [("constructor", VFun next)] ObjectPrototype
             end).
  assert (Hp1 : p1 = PObj [("constructor", VFun next)] parent)
    by (unfold p1, parent; destruct baseClass; reflexivity).
  rewrite Hp1.
  change (lookup (PObj [("constructor", VFun next)] parent) "initialize")
    with (lookup parent "initialize").
  destruct (truthy_value (lookup parent "initialize")) eqn:Ht;
    cbn [negb fst cls_prototype set_own Loader.put];
    (destruct properties as [ps|]; [rewrite fold_set_own|]);
    cbn [lookup]; unfold Loader.put; rewrite ?own_app; simpl rev; cbn [Loader.own];
    (destruct (Loader.own (rev ps) k) || idtac); try reflexivity;
    destruct (String.eqb k "initialize") eqn:Ei, (String.eqb k "constructor") eqn:Ec;
    try reflexivity;
    apply String.eqb_eq in Ei; apply String.eqb_eq in Ec; congruence.
Qed.

End ClassProofs.
